(** * Role reconciliation engine: normalisation and tiered matching

    A shallow embedding of [src/utils.py] ([normalize_role], [fuzzy_match],
    [fuzzy_partial_match], [chunk_text], [clean_extracted_roles]) and of
    [RoleComparer.compare_roles] and [RoleComparer.get_match_statistics]
    from [src/role_comparer.py], with the properties of the design document
    stated and settled against it, and further properties read off the code.

    Data model.
    - A Python [str] is a [string]; a character is an [ascii], read as the
      code point U+0000..U+00FF.  The character classes below are Python's
      own on that range ([str.lower], [str.isspace], and the Unicode-aware
      [\w] and [\s] of the [re] module); code points above U+00FF are outside
      the model.
    - A [dict] is a [gmap], a [set] is a [gset]; [sorted] on strings is a
      merge sort by code points.  Loops over a [dict] or a [set] walk
      [map_to_list] or [elements]; the results do not depend on the order
      ([direct_pass_order_irrelevant], [fuzzy_pass_order_irrelevant],
      [sorted_unique]).
    - A subscript [d[k]] that is not guarded by [k in d] is a lookup in
      [option]; [compare_roles] returns [None] if one raises, and
      [compare_roles_spec] shows that none does.
    - [thefuzz] is a third-party package: its two scorers are the operations
      of the class [Fuzz]. *)

From Stdlib Require Import ZArith NArith Ascii String.
From stdpp Require Import base option list sorting gmap strings.

Local Open Scope N_scope.
#[local] Set Warnings "-clear-no-such-hyp".

(** ** The scorers of [thefuzz]

    [fuzz.ratio] and [fuzz.partial_ratio] return an integer score.  Nothing
    below depends on how they compute it. *)

Class Fuzz := {
  ratio : string → string → Z;
  partial_ratio : string → string → Z
}.

(** ** [src/utils.py] *)

Module Utils.

(** *** Character classes *)

Definition ord (c : ascii) : N := N_of_ascii c.

Definition between (lo hi : N) (c : ascii) : bool :=
  (lo <=? ord c) && (ord c <=? hi).

(** [str.isspace] and the [\s] class: TAB..CR, FS..US, SPACE, NEL, NBSP. *)
Definition isspace (c : ascii) : bool :=
  between 9 13 c || between 28 32 c || (ord c =? 133) || (ord c =? 160).

(** The [\w] class: [Py_UNICODE_ISALNUM] or the underscore. *)
Definition isword (c : ascii) : bool :=
  between 48 57 c || between 65 90 c || between 97 122 c || (ord c =? 95)
  || (ord c =? 170) || between 178 179 c || (ord c =? 181)
  || between 185 186 c || between 188 190 c
  || between 192 214 c || between 216 246 c || between 248 255 c.

(** The characters [str.lower] changes: A..Z and the Latin-1 capitals. *)
Definition isupper (c : ascii) : bool :=
  between 65 90 c || between 192 214 c || between 216 222 c.

Definition char_lower (c : ascii) : ascii :=
  if isupper c then ascii_of_N (ord c + 32) else c.

(** *** String primitives *)

Fixpoint str_map (f : ascii → ascii) (s : string) : string :=
  match s with
  | EmptyString => EmptyString
  | String c s' => String (f c) (str_map f s')
  end.

Fixpoint str_filter (p : ascii → bool) (s : string) : string :=
  match s with
  | EmptyString => EmptyString
  | String c s' => if p c then String c (str_filter p s') else str_filter p s'
  end.

(** [str.lower] *)
Definition lower (s : string) : string := str_map char_lower s.

Fixpoint lstrip (s : string) : string :=
  match s with
  | EmptyString => EmptyString
  | String c s' => if isspace c then lstrip s' else s
  end.

Fixpoint rstrip (s : string) : string :=
  match s with
  | EmptyString => EmptyString
  | String c s' =>
      match rstrip s' with
      | EmptyString => if isspace c then EmptyString else String c EmptyString
      | r => String c r
      end
  end.

(** [str.strip] with no argument *)
Definition strip (s : string) : string := rstrip (lstrip s).

(** [re.sub(r'[^\w\s]', '', s)] *)
Definition sub_nonword_nonspace (s : string) : string :=
  str_filter (λ c, isword c || isspace c) s.

(** [re.sub(r'\s+', ' ', s)]: every maximal run of whitespace becomes one
    space.  [in_run] tells that the previous character was whitespace. *)
Fixpoint sub_space_runs (in_run : bool) (s : string) : string :=
  match s with
  | EmptyString => EmptyString
  | String c s' =>
      if isspace c then
        if in_run then sub_space_runs true s'
        else String " " (sub_space_runs true s')
      else String c (sub_space_runs false s')
  end.

(** [normalize_role].  The argument is a [str] by its type, so the
    [isinstance] guard never fires. *)
Definition normalize_role (role_name : string) : string :=
  let normalized := strip (lower role_name) in
  let normalized := sub_nonword_nonspace normalized in
  let normalized := sub_space_runs false normalized in
  normalized.

(** [fuzzy_match]: [similarity >= threshold] *)
Definition fuzzy_match `{Fuzz} (str1 str2 : string) (threshold : Z) : bool :=
  let similarity := ratio str1 str2 in
  (threshold <=? similarity)%Z.

(** [fuzzy_partial_match] *)
Definition fuzzy_partial_match `{Fuzz} (str1 str2 : string) (threshold : Z) : bool :=
  let similarity := partial_ratio str1 str2 in
  (threshold <=? similarity)%Z.

(** *** [chunk_text] *)

(** [len(s)] *)
Definition len (s : string) : Z := Z.of_nat (String.length s).

(** A slice bound as Python reads it: a negative index counts from the
    end, and the result is clamped to [0, n]. *)
Definition slice_index (n i : Z) : Z :=
  if (i <? 0)%Z then Z.max (i + n) 0 else Z.min i n.

(** [s[start:stop]] *)
Definition slice (s : string) (start stop : Z) : string :=
  let a := slice_index (len s) start in
  let b := slice_index (len s) stop in
  String.substring (Z.to_nat a) (Z.to_nat (b - a)) s.

(** Truth value of a [str]: non-empty. *)
Definition truthy (s : string) : bool :=
  match s with
  | EmptyString => false
  | String _ _ => true
  end.

(** The [while start < text_length] loop; each unit of [fuel] pays for one
    evaluation of the loop condition, and [None] means the fuel ran out. *)
Fixpoint chunk_loop (fuel : nat) (text : string) (chunk_size overlap : Z)
    (start : Z) (chunks : list string) : option (list string) :=
  match fuel with
  | O => None
  | S fuel' =>
      let text_length := len text in
      if (start <? text_length)%Z then
        let end_ := Z.min (start + chunk_size) text_length in
        let chunk := slice text start end_ in
        let chunks := if truthy (strip chunk) then chunks ++ [chunk] else chunks in
        if (text_length <=? end_)%Z then Some chunks
        else
          let start := (start + (chunk_size - overlap))%Z in
          let start := if (chunk_size <=? overlap)%Z then end_ else start in
          chunk_loop fuel' text chunk_size overlap start chunks
      else Some chunks
  end.

(** [chunk_text], with one unit of fuel per character and one more. *)
Definition chunk_text (text : string) (chunk_size overlap : Z)
    : option (list string) :=
  if negb (truthy text) || (chunk_size <=? 0)%Z then Some []
  else chunk_loop (S (String.length text)) text chunk_size overlap 0 [].

(** *** [clean_extracted_roles] *)

(** The [\d] class. *)
Definition isdigit (c : ascii) : bool := between 48 57 c.

(** The class of the list-marker pattern: whitespace, hyphen, the three
    characters U+00E2, U+20AC and U+00A2 that the source file has in the
    place of a bullet, asterisk, digit, full stop.  U+20AC is above the
    range of the model. *)
Definition is_list_marker (c : ascii) : bool :=
  isspace c || Ascii.eqb c "-" || (ord c =? 226) || (ord c =? 162)
  || Ascii.eqb c "*" || isdigit c || Ascii.eqb c ".".

(** [re.sub(r'^[...]+', '', s, flags=re.MULTILINE)]: at the start of the
    string and after every newline the longest run of marker characters is
    deleted.  [at_line_start] is true there and inside such a run. *)
Fixpoint sub_list_markers (at_line_start : bool) (s : string) : string :=
  match s with
  | EmptyString => EmptyString
  | String c s' =>
      if at_line_start && is_list_marker c then sub_list_markers true s'
      else String c (sub_list_markers (Ascii.eqb c "010") s')
  end.

(** The class [[,;\n]]. *)
Definition is_delimiter (c : ascii) : bool :=
  Ascii.eqb c "," || Ascii.eqb c ";" || Ascii.eqb c "010".

(** [re.split] on a one-character class: the pieces between delimiters,
    empty ones included. *)
Fixpoint split_on (p : ascii → bool) (s : string) : list string :=
  match s with
  | EmptyString => [EmptyString]
  | String c s' =>
      if p c then EmptyString :: split_on p s'
      else match split_on p s' with
           | [] => [String c EmptyString]
           | piece :: pieces => String c piece :: pieces
           end
  end.

(** Body of the first loop: strip, keep unless empty or [none]. *)
Definition clean_step (cleaned_roles : list string) (role : string)
    : list string :=
  let role := strip role in
  if truthy role && negb (String.eqb (lower role) "none")
  then cleaned_roles ++ [role] else cleaned_roles.

(** Body of the second loop, on the pair [(seen, unique_roles)]. *)
Definition unique_step (st : gset string * list string) (role : string)
    : gset string * list string :=
  let '(seen, unique_roles) := st in
  if bool_decide (lower role ∈ seen) then (seen, unique_roles)
  else (seen ∪ {[lower role]}, unique_roles ++ [role]).

Definition clean_extracted_roles (roles_str : string) : list string :=
  if negb (truthy roles_str) || String.eqb (lower (strip roles_str)) "none"
  then []
  else
    let roles_str := sub_list_markers true roles_str in
    let roles := split_on is_delimiter roles_str in
    let cleaned_roles := foldl clean_step [] roles in
    let '(seen, unique_roles) := foldl unique_step (∅, []) cleaned_roles in
    unique_roles.

End Utils.

(** ** [src/role_comparer.py] *)

Module RoleComparer.

(** The instance state set by [__init__]. *)
Record t := { fuzzy_threshold : Z }.

(** The four components of the tuple [compare_roles] returns. *)
Record MatchResult := {
  is_incorrect : bool;
  matched_roles : list string;
  incorrect_pdf_roles : list string;
  fuzzy_matches : gmap string string
}.

(** Which of the two tests accepted a candidate (the two [print] branches). *)
Inductive fuzzy_kind := FullMatch | PartialMatch.

(** The three mutable locals of the fuzzy loop. *)
Record fuzzy_state := {
  matched_xml_roles : gset string;
  fuzzy_match_map : gmap string string;
  still_incorrect : gset string
}.

(** A loop whose body may raise: [None] is the exception. *)
Fixpoint foldlM {A B} (f : B → A → option B) (b : B) (l : list A) : option B :=
  match l with
  | [] => Some b
  | x :: l' => b' ← f b x; foldlM f b' l'
  end.

(** [sorted] on a list of [str]: ascending by code points. *)
Definition sorted (l : list string) : list string := merge_sort String.le l.

(** [{normalize_role(role): role for role in roles}]: one assignment per
    element, in list order. *)
Definition normalized_index (roles : list string) : gmap string string :=
  foldl (λ d role, <[Utils.normalize_role role := role]> d) ∅ roles.

Section compare_roles.
Context `{Fuzz}.
Variable self : t.

(** Body of the loop of step 1, on an item of
    [normalized_pdf_to_original.items()]. *)
Definition direct_step (normalized_xml_roles : gmap string string)
    (st : gset string * gset string) (item : string * string)
    : gset string * gset string :=
  let '(matched, potentially_incorrect) := st in
  let '(norm_pdf, orig_pdf) := item in
  match normalized_xml_roles !! norm_pdf with
  | Some xml => (matched ∪ {[xml]}, potentially_incorrect ∖ {[norm_pdf]})
  | None => (matched, potentially_incorrect)
  end.

(** The inner loop [for orig_xml in xml_roles], up to its [break]. *)
Fixpoint scan_xml (orig_pdf : string) (xml_roles : list string)
    : option (string * fuzzy_kind) :=
  match xml_roles with
  | [] => None
  | orig_xml :: rest =>
      if Utils.fuzzy_match orig_pdf orig_xml (fuzzy_threshold self)
      then Some (orig_xml, FullMatch)
      else if Utils.fuzzy_partial_match orig_pdf orig_xml (fuzzy_threshold self)
      then Some (orig_xml, PartialMatch)
      else scan_xml orig_pdf rest
  end.

(** Body of the loop of step 2.  The subscript
    [normalized_pdf_to_original[norm_pdf]] raises on a missing key. *)
Definition fuzzy_step (normalized_pdf_to_original : gmap string string)
    (xml_roles : list string) (st : fuzzy_state) (norm_pdf : string)
    : option fuzzy_state :=
  orig_pdf ← normalized_pdf_to_original !! norm_pdf;
  match scan_xml orig_pdf xml_roles with
  | Some (orig_xml, _) =>
      Some {| matched_xml_roles := matched_xml_roles st ∪ {[orig_xml]};
              fuzzy_match_map := <[orig_pdf := orig_xml]> (fuzzy_match_map st);
              still_incorrect := still_incorrect st |}
  | None =>
      Some {| matched_xml_roles := matched_xml_roles st;
              fuzzy_match_map := fuzzy_match_map st;
              still_incorrect := still_incorrect st ∪ {[norm_pdf]} |}
  end.

Definition compare_roles (xml_roles pdf_roles : list string)
    : option MatchResult :=
  let normalized_xml_roles := normalized_index xml_roles in
  let normalized_pdf_to_original := normalized_index pdf_roles in
  let '(matched, potentially_incorrect) :=
    foldl (direct_step normalized_xml_roles)
          (∅, dom normalized_pdf_to_original)
          (map_to_list normalized_pdf_to_original) in
  let st0 := {| matched_xml_roles := matched;
                fuzzy_match_map := ∅;
                still_incorrect := ∅ |} in
  st ← (if bool_decide (potentially_incorrect ≠ ∅)
        then foldlM (fuzzy_step normalized_pdf_to_original xml_roles)
                    st0 (elements potentially_incorrect)
        else Some st0);
  incorrect ← mapM (λ norm, normalized_pdf_to_original !! norm)
                   (elements (still_incorrect st));
  Some {| is_incorrect := bool_decide (still_incorrect st ≠ ∅);
          matched_roles := sorted (elements (matched_xml_roles st));
          incorrect_pdf_roles := sorted incorrect;
          fuzzy_matches := fuzzy_match_map st |}.

End compare_roles.

(** [get_match_statistics].  The entry [match_rate_percentage] is a rounded
    [float] and is left out; the other entries are as in the source. *)
Module Stats.
Record t := {
  total_xml_roles : nat;
  total_pdf_roles : nat;
  matched_count : nat;
  incorrect_count : nat;
  is_valid : bool;
  matched_roles : list string;
  incorrect_roles : list string
}.
End Stats.

Definition get_match_statistics
    (matched_roles incorrect_pdf_roles xml_roles pdf_roles : list string)
    : Stats.t :=
  let total_xml := size (list_to_set xml_roles : gset string) in
  let total_pdf := size (list_to_set pdf_roles : gset string) in
  let total_matched := length matched_roles in
  let total_incorrect := length incorrect_pdf_roles in
  {| Stats.total_xml_roles := total_xml;
     Stats.total_pdf_roles := total_pdf;
     Stats.matched_count := total_matched;
     Stats.incorrect_count := total_incorrect;
     Stats.is_valid := Nat.eqb total_incorrect 0;
     Stats.matched_roles := matched_roles;
     Stats.incorrect_roles := incorrect_pdf_roles |}.

End RoleComparer.

(** ** Reference scorers for closed examples *)

Module Reference.

(** Edit distance (insertions, deletions, substitutions). *)
Fixpoint levenshtein (a : string) : string → nat :=
  fix inner (b : string) : nat :=
    match a, b with
    | EmptyString, _ => String.length b
    | _, EmptyString => String.length a
    | String x a', String y b' =>
        if Ascii.eqb x y then levenshtein a' b'
        else S (Nat.min (levenshtein a' b) (Nat.min (inner b') (levenshtein a' b')))
    end.

(** Modelled from the spec: the whole-string score of the third-party
    scorer, [100 * (1 - editDistance / max(len a, len b))], rounded to the
    nearest integer; two empty strings are an exact match (100). *)
Definition ratio_ref (a b : string) : Z :=
  let m := Z.of_nat (Nat.max (String.length a) (String.length b)) in
  let d := Z.of_nat (levenshtein a b) in
  if (m =? 0)%Z then 100%Z else ((200 * (m - d) + m) / (2 * m))%Z.

(** All windows of [n] characters of [s], left to right. *)
Fixpoint windows (n : nat) (s : string) : list string :=
  if (String.length s <? n)%nat then []
  else String.substring 0 n s ::
       match s with
       | EmptyString => []
       | String _ s' => windows n s'
       end.

(** Modelled from the spec: the partial score of the third-party scorer,
    the maximum [ratio] of the shorter string against every window of its
    length in the longer one. *)
Definition partial_ratio_ref (a b : string) : Z :=
  let '(short, long) :=
    if (String.length a <=? String.length b)%nat then (a, b) else (b, a) in
  foldr (λ w acc, Z.max (ratio_ref short w) acc) 0%Z
        (windows (String.length short) long).

#[export] Instance fuzz_ref : Fuzz :=
  {| ratio := ratio_ref; partial_ratio := partial_ratio_ref |}.

End Reference.

(** ** Normal forms of the normaliser (specification-side predicates) *)

Module NormalForm.
Import Utils.

Fixpoint str_all (p : ascii → bool) (s : string) : bool :=
  match s with
  | EmptyString => true
  | String c s' => p c && str_all p s'
  end.

(** A character [lower] leaves alone and [re.sub] keeps. *)
Definition kept_lowered (c : ascii) : bool :=
  Ascii.eqb (char_lower c) c && (isword c || isspace c).

(** Lower-case word characters separated by single spaces;
    [after_space] forbids a space in first position. *)
Fixpoint normal (after_space : bool) (s : string) : bool :=
  match s with
  | EmptyString => true
  | String c s' =>
      if isspace c
      then Ascii.eqb c " " && negb after_space && normal true s'
      else isword c && Ascii.eqb (char_lower c) c && normal false s'
  end.

End NormalForm.

(** * Properties *)

(** ** The normaliser *)

Section normalizer.
Import Utils NormalForm.

Local Ltac by_cases c := destruct c as [[] [] [] [] [] [] [] []]; vm_compute; congruence.

Lemma char_lower_idem c : char_lower (char_lower c) = char_lower c.
Proof. by_cases c. Qed.

Lemma isspace_char_lower c : isspace (char_lower c) = isspace c.
Proof. by_cases c. Qed.

Lemma isword_char_lower c : isword (char_lower c) = isword c.
Proof. by_cases c. Qed.

Lemma isword_not_isspace c : isword c = true → isspace c = false.
Proof. by_cases c. Qed.

Lemma str_all_lower s :
  str_all (λ c, Ascii.eqb (char_lower c) c) (lower s) = true.
Proof.
  induction s as [|c s IH]; simpl; [done|].
  rewrite char_lower_idem, Ascii.eqb_refl. exact IH.
Qed.

Lemma str_all_lstrip p s : str_all p s = true → str_all p (lstrip s) = true.
Proof.
  induction s as [|c s IH]; simpl; [done|].
  intros [Hc Hs]%andb_true_iff. destruct (isspace c); simpl; [auto|].
  by rewrite Hc, Hs.
Qed.

Lemma str_all_rstrip p s : str_all p s = true → str_all p (rstrip s) = true.
Proof.
  induction s as [|c s IH]; simpl; [done|].
  intros [Hc Hs]%andb_true_iff. specialize (IH Hs).
  destruct (rstrip s) as [|d r].
  - destruct (isspace c); simpl; [done|]. by rewrite Hc.
  - change (p c && str_all p (String d r) = true). by rewrite Hc, IH.
Qed.

Lemma str_all_filter p q s :
  str_all p s = true →
  str_all (λ c, p c && q c) (str_filter q s) = true.
Proof.
  induction s as [|c s IH]; simpl; [done|].
  intros [Hc Hs]%andb_true_iff. destruct (q c) eqn:Hq; simpl; [|auto].
  by rewrite Hc, Hq, IH.
Qed.

Lemma normal_sub_space_runs b s :
  str_all kept_lowered s = true → normal b (sub_space_runs b s) = true.
Proof.
  revert b. induction s as [|c s IH]; intros b; simpl; [done|].
  intros [Hc Hs]%andb_true_iff.
  apply andb_true_iff in Hc as [Hlow Hcls].
  destruct (isspace c) eqn:Hsp.
  - destruct b; [by apply IH|]. simpl. by apply IH.
  - simpl. rewrite Hsp in *. rewrite orb_false_r in Hcls.
    by rewrite Hcls, Hlow, IH.
Qed.

(** The result of [normalize_role] is in normal form. *)
Lemma normal_normalize_role s : normal false (normalize_role s) = true.
Proof.
  unfold normalize_role. apply normal_sub_space_runs.
  unfold sub_nonword_nonspace, kept_lowered.
  apply (str_all_filter (λ c, Ascii.eqb (char_lower c) c)).
  unfold strip. apply str_all_rstrip, str_all_lstrip, str_all_lower.
Qed.

Lemma normal_weaken b s : normal b s = true → normal false s = true.
Proof.
  destruct s as [|c s]; simpl; [done|]. destruct (isspace c); [|done].
  intros [[-> _]%andb_true_iff ->]%andb_true_iff. done.
Qed.

Lemma lower_normal b s : normal b s = true → lower s = s.
Proof.
  unfold lower. revert b. induction s as [|c s IH]; intros b; simpl; [done|].
  destruct (isspace c) eqn:Hsp.
  - intros [[Hc _]%andb_true_iff Hs]%andb_true_iff.
    apply Ascii.eqb_eq in Hc as ->. f_equal. by apply (IH true).
  - intros [[_ Hc]%andb_true_iff Hs]%andb_true_iff.
    apply Ascii.eqb_eq in Hc. rewrite Hc. f_equal. by apply (IH false).
Qed.

Lemma normal_lstrip b s : normal b s = true → normal true (lstrip s) = true.
Proof.
  revert b. induction s as [|c s IH]; intros b; simpl; [done|].
  destruct (isspace c) eqn:Hsp.
  - intros [_ Hs]%andb_true_iff. by apply (IH true).
  - simpl. by rewrite Hsp.
Qed.

Lemma normal_rstrip b s : normal b s = true → normal b (rstrip s) = true.
Proof.
  revert b. induction s as [|c s IH]; intros b; simpl; [done|].
  destruct (isspace c) eqn:Hsp.
  - intros [Hc Hs]%andb_true_iff. specialize (IH true Hs).
    destruct (rstrip s) as [|d r]; [done|].
    change (normal b (String c (String d r)) = true).
    cbn [normal]. rewrite Hsp, Hc. exact IH.
  - intros [Hc Hs]%andb_true_iff. specialize (IH false Hs).
    destruct (rstrip s) as [|d r].
    + simpl. by rewrite Hsp, Hc.
    + change (normal b (String c (String d r)) = true).
      cbn [normal]. rewrite Hsp, Hc. exact IH.
Qed.

Lemma sub_nonword_nonspace_normal b s :
  normal b s = true → sub_nonword_nonspace s = s.
Proof.
  unfold sub_nonword_nonspace.
  revert b. induction s as [|c s IH]; intros b; simpl; [done|].
  destruct (isspace c) eqn:Hsp.
  - rewrite orb_true_r. intros [_ Hs]%andb_true_iff. f_equal. by apply (IH true).
  - intros [[-> _]%andb_true_iff Hs]%andb_true_iff. simpl.
    f_equal. by apply (IH false).
Qed.

Lemma sub_space_runs_normal b s :
  normal b s = true → sub_space_runs b s = s.
Proof.
  revert b. induction s as [|c s IH]; intros b; simpl; [done|].
  destruct (isspace c) eqn:Hsp.
  - intros [[Hc Hb]%andb_true_iff Hs]%andb_true_iff.
    apply Ascii.eqb_eq in Hc as ->. destruct b; [done|].
    f_equal. by apply IH.
  - intros [_ Hs]%andb_true_iff. f_equal. by apply IH.
Qed.

(** On a normal form the normaliser only trims. *)
Lemma normalize_role_normal s :
  normal false s = true → normalize_role s = strip s.
Proof.
  intros Hs. unfold normalize_role. rewrite (lower_normal _ _ Hs).
  assert (normal false (strip s) = true) as Hstrip.
  { unfold strip. apply normal_rstrip.
    apply (normal_weaken true), (normal_lstrip false), Hs. }
  rewrite (sub_nonword_nonspace_normal _ _ Hstrip).
  by apply sub_space_runs_normal.
Qed.

Lemma normalize_role_twice s :
  normalize_role (normalize_role s) = strip (normalize_role s).
Proof. apply normalize_role_normal, normal_normalize_role. Qed.

End normalizer.

(** ** The normalised index *)

Section index.
Import Utils RoleComparer.

Lemma normalized_index_nil : normalized_index [] = ∅.
Proof. reflexivity. Qed.

Lemma normalized_index_snoc roles role :
  normalized_index (roles ++ [role])
  = <[normalize_role role := role]> (normalized_index roles).
Proof. unfold normalized_index. by rewrite foldl_app. Qed.

(** The entry under a key is the last role of the list with that key. *)
Lemma normalized_index_lookup roles key :
  normalized_index roles !! key
  = last (filter (λ role, normalize_role role = key) roles).
Proof.
  induction roles as [|role roles IH] using rev_ind; [done|].
  rewrite normalized_index_snoc, filter_app, lookup_insert.
  case_decide as Hkey.
  - rewrite filter_cons_True, filter_nil by done. by rewrite last_snoc.
  - rewrite filter_cons_False, filter_nil, app_nil_r by done. exact IH.
Qed.

Lemma normalized_index_Some roles key orig :
  normalized_index roles !! key = Some orig →
  normalize_role orig = key ∧ orig ∈ roles.
Proof.
  rewrite normalized_index_lookup. intros Hlast%last_Some_elem_of.
  by apply list_elem_of_filter in Hlast.
Qed.

Lemma normalized_index_is_Some roles role :
  role ∈ roles → is_Some (normalized_index roles !! normalize_role role).
Proof.
  intros Hin. rewrite normalized_index_lookup. apply last_is_Some.
  intros Hnil. by eapply (filter_nil_not_elem_of _ _ role) in Hnil.
Qed.

Lemma normalized_index_None roles role :
  normalized_index roles !! normalize_role role = None → role ∉ roles.
Proof.
  intros Hnone Hin. apply normalized_index_is_Some in Hin as [? ?]. congruence.
Qed.

(** The recorded spelling is the last occurrence of its key. *)
Lemma normalized_index_last_occurrence roles key orig :
  normalized_index roles !! key = Some orig ↔
  normalize_role orig = key ∧
  ∃ before after, roles = before ++ orig :: after ∧
    ∀ role, role ∈ after → normalize_role role ≠ key.
Proof.
  rewrite normalized_index_lookup. split.
  - revert orig. induction roles as [|role roles IH] using rev_ind; [done|].
    intros orig. rewrite filter_app.
    destruct (decide (normalize_role role = key)) as [Hkey|Hkey].
    + rewrite filter_cons_True, filter_nil, last_snoc by done.
      intros [= ->]. split; [done|]. exists roles, []. split; [done|].
      by intros ? ?%elem_of_nil.
    + rewrite filter_cons_False, filter_nil, app_nil_r by done.
      intros (Horig & before & after & -> & Hafter)%IH. split; [done|].
      exists before, (after ++ [role]). split; [by rewrite <- app_assoc|].
      intros r [?| ->%list_elem_of_singleton]%elem_of_app; auto.
  - intros (Horig & before & after & -> & Hafter).
    rewrite filter_app, filter_cons_True by done.
    assert (filter (λ role, normalize_role role = key) after = []) as ->.
    { induction after as [|r after IH]; [done|].
      rewrite filter_cons_False; [apply IH|apply Hafter]; set_solver. }
    by rewrite last_snoc.
Qed.

End index.

(** ** The two passes of [compare_roles] *)

Section passes.
Import Utils RoleComparer.
Context `{Fuzz}.
Variable self : t.

Implicit Types (xml_index pdf_index : gmap string string).
Implicit Types (xml_roles : list string).

Lemma foldlM_snoc {A B} (f : B → A → option B) b l x :
  foldlM f b (l ++ [x]) = foldlM f b l ≫= λ b', f b' x.
Proof.
  revert b. induction l as [|y l IH]; intros b; simpl.
  - by destruct (f b x).
  - destruct (f b y); simpl; [apply IH|done].
Qed.

(** What [scan_xml] answers: the first candidate, in list order, that passes
    one of the two tests, labelled by the first test it passes. *)
Lemma scan_xml_Some orig_pdf xml_roles orig_xml kind :
  scan_xml self orig_pdf xml_roles = Some (orig_xml, kind) ↔
  ∃ before after, xml_roles = before ++ orig_xml :: after ∧
    (∀ x, x ∈ before →
       fuzzy_match orig_pdf x (fuzzy_threshold self) = false ∧
       fuzzy_partial_match orig_pdf x (fuzzy_threshold self) = false) ∧
    match kind with
    | FullMatch => fuzzy_match orig_pdf orig_xml (fuzzy_threshold self) = true
    | PartialMatch =>
        fuzzy_match orig_pdf orig_xml (fuzzy_threshold self) = false ∧
        fuzzy_partial_match orig_pdf orig_xml (fuzzy_threshold self) = true
    end.
Proof.
  split.
  - induction xml_roles as [|x rest IH]; simpl; [done|].
    destruct (fuzzy_match orig_pdf x _) eqn:Hfull.
    { intros [= -> <-]. exists [], rest. split; [done|]. split; [|done].
      by intros ? ?%elem_of_nil. }
    destruct (fuzzy_partial_match orig_pdf x _) eqn:Hpart.
    { intros [= -> <-]. exists [], rest. split; [done|]. split; [|done].
      by intros ? ?%elem_of_nil. }
    intros (before & after & -> & Hbefore & Hkind)%IH.
    exists (x :: before), after. split; [done|]. split; [|done].
    intros y [->|?]%elem_of_cons; auto.
  - intros (before & after & -> & Hbefore & Hkind).
    induction before as [|x before IH]; simpl.
    + destruct kind; [by rewrite Hkind|].
      destruct Hkind as [-> ->]. done.
    + destruct (Hbefore x) as [-> ->]; [set_solver|].
      apply IH. intros y Hy. apply Hbefore. set_solver.
Qed.

Lemma scan_xml_None orig_pdf xml_roles :
  scan_xml self orig_pdf xml_roles = None ↔
  ∀ x, x ∈ xml_roles →
    fuzzy_match orig_pdf x (fuzzy_threshold self) = false ∧
    fuzzy_partial_match orig_pdf x (fuzzy_threshold self) = false.
Proof.
  induction xml_roles as [|x rest IH]; simpl.
  - split; [by intros _ ? ?%elem_of_nil|done].
  - destruct (fuzzy_match orig_pdf x _) eqn:Hfull.
    { split; [done|]. intros Hall. destruct (Hall x) as [? _]; [set_solver|].
      congruence. }
    destruct (fuzzy_partial_match orig_pdf x _) eqn:Hpart.
    { split; [done|]. intros Hall. destruct (Hall x) as [_ ?]; [set_solver|].
      congruence. }
    rewrite IH. split.
    + intros Hall y [->|?]%elem_of_cons; auto.
    + intros Hall y Hy. apply Hall. set_solver.
Qed.

Lemma scan_xml_elem_of orig_pdf xml_roles orig_xml kind :
  scan_xml self orig_pdf xml_roles = Some (orig_xml, kind) →
  orig_xml ∈ xml_roles.
Proof. intros (? & ? & -> & _)%scan_xml_Some. set_solver. Qed.

(** Step 1, as a fold over any list of items. *)
Lemma direct_pass_spec xml_index items matched0 pending0 :
  ∃ matched pending,
    foldl (direct_step xml_index) (matched0, pending0) items
      = (matched, pending) ∧
    (∀ x, x ∈ matched ↔
       x ∈ matched0 ∨ ∃ norm orig, (norm, orig) ∈ items ∧ xml_index !! norm = Some x) ∧
    (∀ norm, norm ∈ pending ↔
       norm ∈ pending0 ∧
       ¬ ∃ orig, (norm, orig) ∈ items ∧ is_Some (xml_index !! norm)).
Proof.
  revert matched0 pending0.
  induction items as [|[norm orig] items IH]; intros matched0 pending0.
  - exists matched0, pending0. split_and!; [done|..].
    + intros x. split; [auto|]. intros [?|(? & ? & ?%elem_of_nil & _)]; done.
    + intros n. split; [|by intros [? _]]. intros Hn. split; [done|].
      by intros (? & ?%elem_of_nil & _).
  - simpl. destruct (xml_index !! norm) as [xml|] eqn:Hlook.
    + destruct (IH (matched0 ∪ {[xml]}) (pending0 ∖ {[norm]}))
        as (matched & pending & -> & Hm & Hp).
      exists matched, pending. split_and!; [done|..].
      * intros x. rewrite Hm, elem_of_union, elem_of_singleton. split.
        -- intros [[?| ->]|(n & o & ? & ?)]; [by left|right..].
           ++ exists norm, orig. split; [left|done].
           ++ exists n, o. split; [by right|done].
        -- intros [?|(n & o & [[= -> ->]|?]%elem_of_cons & Hx)].
           ++ by left; left.
           ++ left; right. congruence.
           ++ right. by exists n, o.
      * intros n. rewrite Hp, elem_of_difference, elem_of_singleton. split.
        -- intros [[Hn Hne] Hno]. split; [done|].
           intros (o & [[= -> ->]|?]%elem_of_cons & Hsome); [done|].
           apply Hno. by exists o.
        -- intros [Hn Hno]. split_and!; [done|..].
           ++ intros ->. apply Hno. exists orig. split; [left|by eexists].
           ++ intros (o & ? & ?). apply Hno. exists o. split; [by right|done].
    + destruct (IH matched0 pending0) as (matched & pending & -> & Hm & Hp).
      exists matched, pending. split_and!; [done|..].
      * intros x. rewrite Hm. split.
        -- intros [?|(n & o & ? & ?)]; [by left|right].
           exists n, o. split; [by right|done].
        -- intros [?|(n & o & [[= -> ->]|?]%elem_of_cons & Hx)];
             [by left|congruence|right; by exists n, o].
      * intros n. rewrite Hp. split.
        -- intros [Hn Hno]. split; [done|].
           intros (o & [[= -> ->]|?]%elem_of_cons & Hsome).
           ++ rewrite Hlook in Hsome. by destruct Hsome.
           ++ apply Hno. by exists o.
        -- intros [Hn Hno]. split; [done|].
           intros (o & ? & ?). apply Hno. exists o. split; [by right|done].
Qed.

(** Step 2, as a fold over any list of keys of the PDF index: no subscript
    raises, and the three locals are as described. *)
Lemma fuzzy_pass_spec pdf_index xml_roles matched0 pending :
  (∀ norm, norm ∈ pending → is_Some (pdf_index !! norm)) →
  ∃ st,
    foldlM (fuzzy_step self pdf_index xml_roles)
      {| matched_xml_roles := matched0; fuzzy_match_map := ∅;
         still_incorrect := ∅ |} pending = Some st ∧
    (∀ x, x ∈ matched_xml_roles st ↔
       x ∈ matched0 ∨
       ∃ norm orig kind, norm ∈ pending ∧ pdf_index !! norm = Some orig ∧
         scan_xml self orig xml_roles = Some (x, kind)) ∧
    (∀ orig x, fuzzy_match_map st !! orig = Some x ↔
       ∃ norm kind, norm ∈ pending ∧ pdf_index !! norm = Some orig ∧
         scan_xml self orig xml_roles = Some (x, kind)) ∧
    (∀ norm, norm ∈ still_incorrect st ↔
       norm ∈ pending ∧
       ∃ orig, pdf_index !! norm = Some orig ∧
         scan_xml self orig xml_roles = None).
Proof.
  induction pending as [|norm pending IH] using rev_ind; intros Hdom.
  - eexists. split; [done|]. simpl. split_and!.
    + intros x. split; [auto|]. intros [?|(? & ? & ? & ?%elem_of_nil & _)]; done.
    + intros orig x. rewrite lookup_empty. split; [done|].
      by intros (? & ? & ?%elem_of_nil & _).
    + intros n. split; [set_solver|]. by intros [?%elem_of_nil _].
  - destruct IH as (st & Hst & Hm & Hf & Hs); [intros; apply Hdom; set_solver|].
    rewrite foldlM_snoc, Hst. simpl. unfold fuzzy_step.
    destruct (Hdom norm) as [orig Horig]; [set_solver|]. rewrite Horig. simpl.
    destruct (scan_xml self orig xml_roles) as [[xml kind]|] eqn:Hscan.
    + eexists. split; [done|]. simpl. split_and!.
      * intros x. rewrite elem_of_union, elem_of_singleton, Hm. split.
        -- intros [[?|(n & o & k & ? & ? & ?)]| ->]; [by left|right..].
           ++ exists n, o, k. set_solver.
           ++ exists norm, orig, kind. set_solver.
        -- intros [?|(n & o & k & [?| ->%list_elem_of_singleton]%elem_of_app & Ho & Hx)].
           ++ by left; left.
           ++ left; right. by exists n, o, k.
           ++ right. congruence.
      * intros o x. rewrite lookup_insert. case_decide as Ho.
        -- subst o. split.
           ++ intros [= ->]. exists norm, kind. set_solver.
           ++ intros (? & ? & _ & _ & ?). congruence.
        -- rewrite Hf. split.
           ++ intros (n & k & ? & ? & ?). exists n, k. set_solver.
           ++ intros (n & k & [?| ->%list_elem_of_singleton]%elem_of_app & Hn & Hx);
                [by exists n, k|congruence].
      * intros n. rewrite Hs. split.
        -- intros [? ?]. set_solver.
        -- intros [[?| ->%list_elem_of_singleton]%elem_of_app (o & Ho & Hnone)];
             [by eauto|congruence].
    + eexists. split; [done|]. simpl. split_and!.
      * intros x. rewrite Hm. split.
        -- intros [?|(n & o & k & ? & ? & ?)]; [by left|right].
           exists n, o, k. set_solver.
        -- intros [?|(n & o & k & [?| ->%list_elem_of_singleton]%elem_of_app & Ho & Hx)];
             [by left|right; by exists n, o, k|congruence].
      * intros o x. rewrite Hf. split.
        -- intros (n & k & ? & ? & ?). exists n, k. set_solver.
        -- intros (n & k & [?| ->%list_elem_of_singleton]%elem_of_app & Hn & Hx);
             [by exists n, k|congruence].
      * intros n. rewrite elem_of_union, elem_of_singleton, Hs. split.
        -- intros [[? ?]| ->]; [set_solver|]. split; [set_solver|by eauto].
        -- intros [[?| ->%list_elem_of_singleton]%elem_of_app ?]; [left|right]; done.
Qed.

(** A [dict] is walked in insertion order and a [set] in hash order; the
    model walks [map_to_list] and [elements].  Both passes are insensitive
    to that order. *)
Lemma direct_pass_order_irrelevant xml_index items items' matched0 pending0 :
  items ≡ₚ items' →
  foldl (direct_step xml_index) (matched0, pending0) items
  = foldl (direct_step xml_index) (matched0, pending0) items'.
Proof.
  intros Hperm.
  destruct (direct_pass_spec xml_index items matched0 pending0)
    as (m1 & p1 & -> & Hm1 & Hp1).
  destruct (direct_pass_spec xml_index items' matched0 pending0)
    as (m2 & p2 & -> & Hm2 & Hp2).
  f_equal; apply set_eq; intros x.
  - rewrite Hm1, Hm2. by setoid_rewrite Hperm.
  - rewrite Hp1, Hp2. by setoid_rewrite Hperm.
Qed.

Lemma fuzzy_pass_order_irrelevant pdf_index xml_roles matched0 pending pending' :
  pending ≡ₚ pending' →
  (∀ norm, norm ∈ pending → is_Some (pdf_index !! norm)) →
  foldlM (fuzzy_step self pdf_index xml_roles)
    {| matched_xml_roles := matched0; fuzzy_match_map := ∅;
       still_incorrect := ∅ |} pending
  = foldlM (fuzzy_step self pdf_index xml_roles)
      {| matched_xml_roles := matched0; fuzzy_match_map := ∅;
         still_incorrect := ∅ |} pending'.
Proof.
  intros Hperm Hdom.
  destruct (fuzzy_pass_spec pdf_index xml_roles matched0 pending Hdom)
    as ([m1 f1 s1] & -> & Hm1 & Hf1 & Hs1).
  destruct (fuzzy_pass_spec pdf_index xml_roles matched0 pending')
    as ([m2 f2 s2] & -> & Hm2 & Hf2 & Hs2).
  { intros norm Hn. apply Hdom. by rewrite Hperm. }
  simpl in *. f_equal. f_equal.
  - apply set_eq. intros x. rewrite Hm1, Hm2. by setoid_rewrite Hperm.
  - apply map_eq. intros orig. apply option_eq. intros x.
    rewrite Hf1, Hf2. by setoid_rewrite Hperm.
  - apply set_eq. intros x. rewrite Hs1, Hs2. by setoid_rewrite Hperm.
Qed.

End passes.

(** ** [sorted] *)

Section sorted.
Import RoleComparer.

Lemma sorted_Permutation l : sorted l ≡ₚ l.
Proof. apply merge_sort_Permutation. Qed.

Lemma elem_of_sorted l x : x ∈ sorted l ↔ x ∈ l.
Proof. by rewrite sorted_Permutation. Qed.

Lemma StronglySorted_strict (l : list string) :
  StronglySorted String.le l → NoDup l → StronglySorted (strict String.le) l.
Proof.
  induction 1 as [|x l Hl IH Hx]; intros Hnd; [constructor|].
  apply NoDup_cons in Hnd as [Hnotin Hnd]. constructor; [by apply IH|].
  apply Forall_forall. intros y Hy. split.
  - by eapply Forall_forall in Hx.
  - intros Hyx. eapply Forall_forall in Hx; [|done].
    assert (x = y) as -> by (by apply (anti_symm String.le)). done.
Qed.

(** Sorting a duplicate-free list gives a strictly ascending list. *)
Lemma sorted_strict l :
  NoDup l → StronglySorted (strict String.le) (sorted l).
Proof.
  intros Hnd. apply StronglySorted_strict.
  - apply (StronglySorted_merge_sort String.le).
  - by rewrite sorted_Permutation.
Qed.

Lemma Forall2_NoDup {A B} (R : A → B → Prop) l k :
  (∀ x x' y, R x y → R x' y → x = x') →
  Forall2 R l k → NoDup l → NoDup k.
Proof.
  intros Hinj. induction 1 as [|x y l k Hxy Hlk IH]; intros Hnd; [constructor|].
  apply NoDup_cons in Hnd as [Hnotin Hnd]. apply NoDup_cons. split; [|auto].
  intros Hy. apply list_elem_of_lookup in Hy as [i Hi].
  destruct (Forall2_lookup_r _ _ _ _ _ Hlk Hi) as (x' & Hx' & HR).
  apply Hnotin. rewrite (Hinj x x' y Hxy HR).
  apply list_elem_of_lookup. eauto.
Qed.

(** Any ascending rearrangement of a list is the one [sorted] computes, so
    the sorting algorithm does not matter. *)
Lemma sorted_unique l k : Sorted String.le k → k ≡ₚ l → k = sorted l.
Proof.
  intros Hk Hperm. apply (Sorted_unique String.le); [done|..].
  - apply (Sorted_merge_sort String.le).
  - by rewrite sorted_Permutation.
Qed.

End sorted.

(** ** [compare_roles] as a whole *)

Section compare_roles_spec.
Import Utils RoleComparer.
Context `{Fuzz}.
Variable self : t.

(** The function returns (no subscript raises), and its four results are
    described by the two indexes and the scan. *)
Lemma compare_roles_spec xml_roles pdf_roles :
  let xml_index := normalized_index xml_roles in
  let pdf_index := normalized_index pdf_roles in
  ∃ r, compare_roles self xml_roles pdf_roles = Some r ∧
    (∀ x, x ∈ matched_roles r ↔
       (∃ norm, is_Some (pdf_index !! norm) ∧ xml_index !! norm = Some x) ∨
       (∃ orig, fuzzy_matches r !! orig = Some x)) ∧
    (∀ orig x, fuzzy_matches r !! orig = Some x ↔
       pdf_index !! normalize_role orig = Some orig ∧
       xml_index !! normalize_role orig = None ∧
       ∃ kind, scan_xml self orig xml_roles = Some (x, kind)) ∧
    (∀ orig, orig ∈ incorrect_pdf_roles r ↔
       pdf_index !! normalize_role orig = Some orig ∧
       xml_index !! normalize_role orig = None ∧
       scan_xml self orig xml_roles = None) ∧
    is_incorrect r = bool_decide (incorrect_pdf_roles r ≠ []) ∧
    StronglySorted (strict String.le) (matched_roles r) ∧
    StronglySorted (strict String.le) (incorrect_pdf_roles r).
Proof.
  intros xml_index pdf_index. unfold compare_roles.
  fold xml_index pdf_index.
  assert (∀ norm orig, pdf_index !! norm = Some orig → normalize_role orig = norm)
    as Hkey by (intros ?? [? _]%normalized_index_Some; done).
  destruct (direct_pass_spec xml_index (map_to_list pdf_index) ∅ (dom pdf_index))
    as (matched & pending & -> & Hmatched & Hpending).
  set (st0 := {| matched_xml_roles := matched; fuzzy_match_map := ∅;
                 still_incorrect := ∅ |}).
  assert (∀ norm, norm ∈ pending ↔
            is_Some (pdf_index !! norm) ∧ xml_index !! norm = None) as Hpending'.
  { intros norm. rewrite Hpending, elem_of_dom. split.
    - intros [[orig Horig] Hno]. split; [by eexists|].
      destruct (xml_index !! norm) eqn:Hx; [|done]. destruct Hno.
      exists orig. by rewrite elem_of_map_to_list.
    - intros [Hsome Hnone]. split; [done|].
      intros (? & _ & [? ?]). congruence. }
  assert ((if bool_decide (pending ≠ ∅)
           then foldlM (fuzzy_step self pdf_index xml_roles) st0 (elements pending)
           else Some st0)
          = foldlM (fuzzy_step self pdf_index xml_roles) st0 (elements pending))
    as ->.
  { case_bool_decide as Hne; [done|].
    rewrite Hne. by rewrite elements_empty. }
  subst st0.
  destruct (fuzzy_pass_spec self pdf_index xml_roles matched (elements pending))
    as (st & -> & Hm & Hf & Hs).
  { intros norm Hn%elem_of_elements. by apply Hpending'. }
  simpl.
  destruct (mapM_is_Some_2 (λ norm, pdf_index !! norm)
              (elements (still_incorrect st))) as [incorrect Hincorrect].
  { apply Forall_forall. intros norm Hn%elem_of_elements.
    apply Hs in Hn as [_ (orig & Ho & _)]. simpl. rewrite Ho. by eexists. }
  rewrite Hincorrect. simpl. apply mapM_Some_1 in Hincorrect.
  eexists. split; [done|]. simpl.
  assert (∀ orig x, fuzzy_match_map st !! orig = Some x ↔
            pdf_index !! normalize_role orig = Some orig ∧
            xml_index !! normalize_role orig = None ∧
            ∃ kind, scan_xml self orig xml_roles = Some (x, kind)) as Hf'.
  { intros orig x. rewrite Hf. split.
    - intros (norm & kind & [Hsome Hnone]%elem_of_elements%Hpending' & Horig & Hscan).
      rewrite (Hkey _ _ Horig). eauto.
    - intros (Horig & Hnone & kind & Hscan).
      exists (normalize_role orig), kind. split_and!; [|done..].
      apply elem_of_elements, Hpending'. split; [by eexists|done]. }
  assert (∀ orig, orig ∈ incorrect ↔
            pdf_index !! normalize_role orig = Some orig ∧
            xml_index !! normalize_role orig = None ∧
            scan_xml self orig xml_roles = None) as Hi.
  { intros orig. split.
    - intros [i Hi]%list_elem_of_lookup.
      destruct (Forall2_lookup_r _ _ _ _ _ Hincorrect Hi) as (norm & Hnorm & Horig).
      assert (norm ∈ still_incorrect st) as Hin
        by (apply elem_of_elements, list_elem_of_lookup; eauto).
      apply Hs in Hin as [[_ Hnone]%elem_of_elements%Hpending' (o & Ho & Hscan)].
      assert (o = orig) as -> by congruence.
      rewrite (Hkey _ _ Horig). done.
    - intros (Horig & Hnone & Hscan).
      assert (normalize_role orig ∈ still_incorrect st) as Hin.
      { apply Hs. split; [|by eauto].
        apply elem_of_elements, Hpending'. split; [by eexists|done]. }
      apply elem_of_elements, list_elem_of_lookup in Hin as [i Hi'].
      destruct (Forall2_lookup_l _ _ _ _ _ Hincorrect Hi') as (o & Ho & Horig').
      assert (o = orig) as -> by congruence.
      apply list_elem_of_lookup. eauto. }
  split_and!.
  - intros x. rewrite elem_of_sorted, elem_of_elements, Hm, Hmatched. split.
    + intros [[?%elem_of_empty|(norm & orig & Hitem%elem_of_map_to_list & Hx)]
             |(norm & orig & kind & Hn & Horig & Hscan)]; [done|left|right].
      * exists norm. split; [by eexists|done].
      * exists orig. apply Hf. eauto.
    + intros [(norm & [orig Horig] & Hx)|(orig & Hx)].
      * left; right. exists norm, orig. by rewrite elem_of_map_to_list.
      * right. apply Hf in Hx as (norm & kind & ? & ? & ?). eauto 6.
  - exact Hf'.
  - intros orig. by rewrite elem_of_sorted, Hi.
  - apply bool_decide_ext.
    apply Forall2_length in Hincorrect.
    pose proof (Permutation_length (sorted_Permutation incorrect)) as Hlen.
    split; intros Hne Heq; apply Hne.
    + apply leibniz_equiv, elements_empty_inv, nil_length_inv.
      by rewrite Hincorrect, <- Hlen, Heq.
    + rewrite Heq, elements_empty in Hincorrect.
      apply nil_length_inv. by rewrite Hlen, <- Hincorrect.
  - apply sorted_strict, NoDup_elements.
  - apply sorted_strict.
    eapply (Forall2_NoDup _ _ _ _ Hincorrect), NoDup_elements.
    Unshelve. intros norm norm' orig Hn Hn'. simpl in *.
    by rewrite <- (Hkey _ _ Hn), <- (Hkey _ _ Hn').
Qed.

End compare_roles_spec.

(** * The documented properties *)

Import Utils RoleComparer.

(** ** Normalisation *)

(** C2.  The two examples of the [normalize_role] docstring, evaluated:
    ["Software Engineer!"] normalises to ["software engineer"] as documented,
    but ["  Senior-Developer  "] normalises to ["seniordeveloper"]: the
    hyphen is deleted by the substitution, not turned into a space, so the
    documented ["senior developer"] is not what the function returns. *)
Theorem normalize_role_docstring_examples :
  normalize_role "Software Engineer!" = "software engineer"%string ∧
  normalize_role "  Senior-Developer  " = "seniordeveloper"%string ∧
  normalize_role "  Senior-Developer  " ≠ "senior developer"%string.
Proof. split_and!; [reflexivity|reflexivity|discriminate]. Qed.

(** C3, as stated, fails: a deleted character next to a space leaves that
    space at the edge of the result, and a second pass trims it. *)
Lemma normalize_role_not_idempotent :
  normalize_role "- Manager" = " manager"%string ∧
  normalize_role (normalize_role "- Manager") ≠ normalize_role "- Manager".
Proof. split; [reflexivity|discriminate]. Qed.

(** C3, amended.  A second normalisation only trims the first result, so
    [normalize_role] is idempotent at [s] exactly when [normalize_role s]
    neither starts nor ends with a space. *)
Theorem normalize_role_idempotent_iff s :
  normalize_role (normalize_role s) = strip (normalize_role s) ∧
  (normalize_role (normalize_role s) = normalize_role s ↔
   strip (normalize_role s) = normalize_role s).
Proof.
  pose proof (normalize_role_twice s) as Htwice. split; [done|].
  by rewrite Htwice.
Qed.

(** ** The XML index *)

(** C4, as stated, fails: of two XML roles with the same key the index keeps
    the later spelling, and that spelling is the one reported as matched. *)
Lemma xml_index_keeps_later_duplicate :
  normalize_role "Manager" = normalize_role "manager" ∧
  normalized_index ["Manager"; "manager"]%string !! normalize_role "Manager"
    ≠ Some "Manager"%string ∧
  matched_roles <$>
    compare_roles (H := Reference.fuzz_ref) {| fuzzy_threshold := 80 |}
      ["Manager"; "manager"]%string ["MANAGER"%string]
    = Some ["manager"%string].
Proof. split_and!; [reflexivity|discriminate|by vm_compute]. Qed.

(** C4, amended.  The index has an entry for exactly the keys of the listed
    roles, and the entry of a key is the last role of the list with that key:
    a later duplicate replaces the recorded spelling. *)
Theorem xml_index_last_seen (xml_roles : list string) (key : string) :
  (is_Some (normalized_index xml_roles !! key) ↔
   ∃ role, role ∈ xml_roles ∧ normalize_role role = key) ∧
  (∀ orig, normalized_index xml_roles !! key = Some orig ↔
     normalize_role orig = key ∧
     ∃ before after, xml_roles = before ++ orig :: after ∧
       ∀ role, role ∈ after → normalize_role role ≠ key).
Proof.
  split.
  - split.
    + intros [orig [? ?]%normalized_index_Some]. eauto.
    + intros (role & Hin & <-). by apply normalized_index_is_Some.
  - intros orig. apply normalized_index_last_occurrence.
Qed.

(** ** The matcher *)

Lemma StronglySorted_strict_NoDup (l : list string) :
  StronglySorted (strict String.le) l → NoDup l.
Proof.
  induction 1 as [|x l Hl IH Hx]; constructor; [|done].
  intros Hin. eapply Forall_forall in Hx as [Hle Hnle]; [|done]. done.
Qed.

Lemma list_singleton_unique (l : list string) s :
  NoDup l → (∀ x, x ∈ l ↔ x = s) → l = [s].
Proof.
  intros Hnd Hl. destruct l as [|a [|b l]].
  - exfalso. by apply (elem_of_nil s), Hl.
  - f_equal. apply Hl. left.
  - assert (a = s) as -> by (apply Hl; left).
    assert (b = s) as -> by (apply Hl; right; left).
    apply NoDup_cons in Hnd as [Hnotin _]. destruct Hnotin. left.
Qed.

Lemma fuzzy_match_lower {Hfuzz : Fuzz} a b (lo hi : Z) :
  (lo ≤ hi)%Z → fuzzy_match a b lo = false → fuzzy_match a b hi = false.
Proof. unfold fuzzy_match. simpl. lia. Qed.

Lemma fuzzy_partial_match_lower {Hfuzz : Fuzz} a b (lo hi : Z) :
  (lo ≤ hi)%Z →
  fuzzy_partial_match a b lo = false → fuzzy_partial_match a b hi = false.
Proof. unfold fuzzy_partial_match. simpl. lia. Qed.

(** A scan that fails under a threshold fails under every higher one. *)
Lemma scan_xml_None_lower {Hfuzz : Fuzz} (lo hi : Z) orig_pdf xml_roles :
  (lo ≤ hi)%Z →
  scan_xml {| fuzzy_threshold := lo |} orig_pdf xml_roles = None →
  scan_xml {| fuzzy_threshold := hi |} orig_pdf xml_roles = None.
Proof.
  intros Hle. rewrite !scan_xml_None. simpl. intros Hall x Hx.
  destruct (Hall x Hx) as [Hfull Hpart].
  eauto using fuzzy_match_lower, fuzzy_partial_match_lower.
Qed.




(** C5.  [compare_roles] returns; its flag is true exactly when the list of
    incorrect PDF roles is not empty; and the matched and the incorrect
    lists are both strictly ascending in the code-point order of strings,
    hence sorted and free of duplicates. *)
Theorem compare_roles_flag_and_order {Hfuzz : Fuzz} (self : t)
    (xml_roles pdf_roles : list string) :
  ∃ r, compare_roles self xml_roles pdf_roles = Some r ∧
    (is_incorrect r = true ↔ incorrect_pdf_roles r ≠ []) ∧
    StronglySorted (strict String.le) (matched_roles r) ∧
    StronglySorted (strict String.le) (incorrect_pdf_roles r) ∧
    NoDup (matched_roles r) ∧ NoDup (incorrect_pdf_roles r).
Proof.
  destruct (compare_roles_spec self xml_roles pdf_roles)
    as (r & Hr & _ & _ & _ & Hflag & Hsm & Hsi).
  exists r. split_and!; [done| |done|done|..].
  - rewrite Hflag. apply bool_decide_eq_true.
  - by apply StronglySorted_strict_NoDup.
  - by apply StronglySorted_strict_NoDup.
Qed.

(** C7.  In every result the value of each fuzzy entry is one of the matched
    roles, and no string is both a matched role and an incorrect PDF role. *)
Theorem compare_roles_fuzzy_values_matched_disjoint {Hfuzz : Fuzz} (self : t)
    (xml_roles pdf_roles : list string) :
  ∃ r, compare_roles self xml_roles pdf_roles = Some r ∧
    map_Forall (λ _ xml, xml ∈ matched_roles r) (fuzzy_matches r) ∧
    (∀ role, ¬ (role ∈ matched_roles r ∧ role ∈ incorrect_pdf_roles r)).
Proof.
  destruct (compare_roles_spec self xml_roles pdf_roles)
    as (r & Hr & Hm & Hf & Hi & _).
  exists r. split_and!; [done|..].
  - intros orig xml Hentry. apply Hm. eauto.
  - intros role [Hmatched (_ & Hnone & _)%Hi].
    apply normalized_index_None in Hnone. apply Hnone.
    apply Hm in Hmatched as [(norm & _ & Hx)|(orig & Hx)].
    + by apply normalized_index_Some in Hx as [_ ?].
    + apply Hf in Hx as (_ & _ & kind & Hscan).
      by eapply scan_xml_elem_of.
Qed.

(** C8.  Comparing the one-element list [[s]] with itself gives the matched
    list [[s]], no incorrect role, no fuzzy entry and a false flag, whatever
    the string and the threshold. *)
Theorem compare_roles_exact_match {Hfuzz : Fuzz} (self : t) (s : string) :
  compare_roles self [s] [s]
  = Some {| is_incorrect := false; matched_roles := [s];
            incorrect_pdf_roles := []; fuzzy_matches := ∅ |}.
Proof.
  destruct (compare_roles_spec self [s] [s])
    as (r & -> & Hm & Hf & Hi & Hflag & Hsm & _).
  assert (normalized_index [s] !! normalize_role s = Some s) as Hs
    by apply lookup_insert_eq.
  assert (∀ role, normalized_index [s] !! normalize_role role = Some role →
                  role = s) as Honly.
  { by intros role [_ ?%list_elem_of_singleton]%normalized_index_Some. }
  destruct r as [flag matched incorrect fuzzy]. simpl in *.
  assert (fuzzy = ∅) as ->.
  { apply map_empty. intros orig.
    destruct (fuzzy !! orig) as [x|] eqn:Hentry; [|done].
    apply Hf in Hentry as (Horig & Hnone & _).
    rewrite (Honly _ Horig) in Hnone. congruence. }
  assert (incorrect = []) as ->.
  { apply elem_of_nil_inv. intros orig (Horig & Hnone & _)%Hi.
    rewrite (Honly _ Horig) in Hnone. congruence. }
  assert (matched = [s]) as ->.
  { apply list_singleton_unique; [by apply StronglySorted_strict_NoDup|].
    intros x. rewrite Hm. split.
    - intros [(norm & _ & [_ ?%list_elem_of_singleton]%normalized_index_Some)
             |(orig & Hx)]; [done|].
      by rewrite lookup_empty in Hx.
    - intros ->. left. exists (normalize_role s). split; [by eexists|done]. }
  rewrite Hflag. by rewrite bool_decide_eq_false_2 by (intros Hne; done).
Qed.

(** C6, as stated, fails for the entries of the fuzzy map: under a lower
    threshold an earlier XML candidate can pass, and the scan then stops
    there.  With XML roles [abxy; abcx] and the PDF role [abcd] (scores 50
    and 75), the entry [abcd -> abcx] of threshold 75 is replaced by
    [abcd -> abxy] at threshold 50, and [abcx] is no longer matched. *)
Lemma lowering_threshold_replaces_fuzzy_entry :
  ∃ r_hi r_lo,
    compare_roles (H := Reference.fuzz_ref) {| fuzzy_threshold := 75 |}
      ["abxy"; "abcx"]%string ["abcd"%string] = Some r_hi ∧
    compare_roles (H := Reference.fuzz_ref) {| fuzzy_threshold := 50 |}
      ["abxy"; "abcx"]%string ["abcd"%string] = Some r_lo ∧
    fuzzy_matches r_hi !! "abcd"%string = Some "abcx"%string ∧
    fuzzy_matches r_lo !! "abcd"%string ≠ Some "abcx"%string ∧
    matched_roles r_hi = ["abcx"%string] ∧
    matched_roles r_lo = ["abxy"%string].
Proof.
  eexists _, _. split; [by vm_compute|]. split; [by vm_compute|].
  split_and!; by vm_compute.
Qed.

(** C6, amended.  For fixed role lists, lowering the threshold never makes
    a PDF role incorrect that was not incorrect before, and never removes a
    key of the fuzzy map; the XML role recorded for a key may change. *)
Theorem lowering_threshold_keeps_matches {Hfuzz : Fuzz} (lo hi : Z)
    (xml_roles pdf_roles : list string) :
  (lo ≤ hi)%Z →
  ∃ r_hi r_lo,
    compare_roles {| fuzzy_threshold := hi |} xml_roles pdf_roles = Some r_hi ∧
    compare_roles {| fuzzy_threshold := lo |} xml_roles pdf_roles = Some r_lo ∧
    (∀ role, role ∈ incorrect_pdf_roles r_lo → role ∈ incorrect_pdf_roles r_hi) ∧
    (∀ role, is_Some (fuzzy_matches r_hi !! role) →
             is_Some (fuzzy_matches r_lo !! role)).
Proof.
  intros Hle.
  destruct (compare_roles_spec {| fuzzy_threshold := hi |} xml_roles pdf_roles)
    as (r_hi & Hhi & _ & Hf_hi & Hi_hi & _).
  destruct (compare_roles_spec {| fuzzy_threshold := lo |} xml_roles pdf_roles)
    as (r_lo & Hlo & _ & Hf_lo & Hi_lo & _).
  exists r_hi, r_lo. split_and!; [done|done|..].
  - intros role (Horig & Hnone & Hscan)%Hi_lo. apply Hi_hi.
    eauto using scan_xml_None_lower.
  - intros role [xml (Horig & Hnone & kind & Hscan)%Hf_hi].
    destruct (scan_xml {| fuzzy_threshold := lo |} role xml_roles)
      as [[xml' kind']|] eqn:Hscan_lo.
    + exists xml'. apply Hf_lo. eauto.
    + apply (scan_xml_None_lower lo hi) in Hscan_lo; [congruence|done].
Qed.

(** C6 (amended) at thresholds 50 and 75 on the input above. *)
Lemma lowering_threshold_keeps_matches_witness :
  (50 ≤ 75)%Z ∧
  ∃ r_hi r_lo,
    compare_roles (H := Reference.fuzz_ref) {| fuzzy_threshold := 75 |}
      ["abxy"; "abcx"]%string ["abcd"; "zzzz"]%string = Some r_hi ∧
    compare_roles (H := Reference.fuzz_ref) {| fuzzy_threshold := 50 |}
      ["abxy"; "abcx"]%string ["abcd"; "zzzz"]%string = Some r_lo ∧
    (∀ role, role ∈ incorrect_pdf_roles r_lo → role ∈ incorrect_pdf_roles r_hi) ∧
    (∀ role, is_Some (fuzzy_matches r_hi !! role) →
             is_Some (fuzzy_matches r_lo !! role)).
Proof.
  split; [lia|].
  apply (lowering_threshold_keeps_matches (Hfuzz := Reference.fuzz_ref) 50 75).
  lia.
Defined.

(** C9, as stated, fails twice.  A whitespace-only PDF role is a role like
    any other: when no XML role matches it, it is reported incorrect and the
    flag is true.  And with no XML role, of two PDF spellings with the same
    key only the later one is reported. *)
Lemma whitespace_pdf_role_is_incorrect :
  compare_roles (H := Reference.fuzz_ref) {| fuzzy_threshold := 80 |}
    ["Engineer"%string] [" "%string]
  = Some {| is_incorrect := true; matched_roles := [];
            incorrect_pdf_roles := [" "%string]; fuzzy_matches := ∅ |} ∧
  compare_roles (H := Reference.fuzz_ref) {| fuzzy_threshold := 80 |}
    [] [" "%string]
  = Some {| is_incorrect := true; matched_roles := [];
            incorrect_pdf_roles := [" "%string]; fuzzy_matches := ∅ |} ∧
  incorrect_pdf_roles <$>
    compare_roles (H := Reference.fuzz_ref) {| fuzzy_threshold := 80 |}
      [] ["Manager"; "manager"]%string
  = Some ["manager"%string].
Proof. split_and!; by vm_compute. Qed.

(** C9, amended.  With no PDF role the result is the empty one, flag false.
    With no XML role nothing is matched, directly or fuzzily; the incorrect
    roles are exactly the spellings recorded in the PDF mapping, so every
    PDF role is reported under the last spelling of its normalised key; and
    the flag is true exactly when there is a PDF role.  Neither case
    raises.  Whitespace-only roles get no special treatment. *)
Theorem compare_roles_degenerate_inputs {Hfuzz : Fuzz} (self : t)
    (roles : list string) :
  compare_roles self roles []
  = Some {| is_incorrect := false; matched_roles := [];
            incorrect_pdf_roles := []; fuzzy_matches := ∅ |} ∧
  ∃ r, compare_roles self [] roles = Some r ∧
    matched_roles r = [] ∧
    fuzzy_matches r = ∅ ∧
    (∀ role, role ∈ incorrect_pdf_roles r ↔
       normalized_index roles !! normalize_role role = Some role) ∧
    (∀ role, role ∈ roles →
       ∃ orig, orig ∈ incorrect_pdf_roles r ∧
         normalized_index roles !! normalize_role role = Some orig) ∧
    (is_incorrect r = true ↔ roles ≠ []).
Proof.
  split.
  - destruct (compare_roles_spec self roles [])
      as (r & -> & Hm & Hf & Hi & Hflag & _).
    destruct r as [flag matched incorrect fuzzy]. simpl in *.
    assert (fuzzy = ∅) as ->.
    { apply map_empty. intros orig.
      destruct (fuzzy !! orig) as [x|] eqn:Hentry; [|done].
      by apply Hf in Hentry as (Horig & _). }
    assert (incorrect = []) as ->.
    { apply elem_of_nil_inv. by intros orig (Horig & _)%Hi. }
    assert (matched = []) as ->.
    { apply elem_of_nil_inv. intros x [(norm & [? Hnorm] & _)|(orig & Hx)]%Hm.
      - by rewrite normalized_index_nil, lookup_empty in Hnorm.
      - by rewrite lookup_empty in Hx. }
    rewrite Hflag. by rewrite bool_decide_eq_false_2 by (intros Hne; done).
  - destruct (compare_roles_spec self [] roles)
      as (r & Hr & Hm & Hf & Hi & Hflag & _).
    assert (fuzzy_matches r = ∅) as Hfuzzy.
    { apply map_empty. intros orig.
      destruct (fuzzy_matches r !! orig) as [x|] eqn:Hentry; [|done].
      by apply Hf in Hentry as (_ & _ & ? & ?). }
    assert (∀ role, role ∈ incorrect_pdf_roles r ↔
              normalized_index roles !! normalize_role role = Some role) as Hinc.
    { intros role. rewrite Hi, normalized_index_nil, lookup_empty. naive_solver. }
    assert (∀ role, role ∈ roles →
              ∃ orig, orig ∈ incorrect_pdf_roles r ∧
                normalized_index roles !! normalize_role role = Some orig) as Hall.
    { intros role [orig Horig]%normalized_index_is_Some.
      exists orig. split; [|done]. apply Hinc.
      destruct (normalized_index_Some _ _ _ Horig) as [Hkey _].
      by rewrite Hkey. }
    exists r. split_and!; [done| |done|done|done|].
    + apply elem_of_nil_inv. intros x [(norm & _ & Hx)|(orig & Hx)]%Hm.
      * by rewrite normalized_index_nil, lookup_empty in Hx.
      * by rewrite Hfuzzy, lookup_empty in Hx.
    + rewrite Hflag, bool_decide_eq_true. split.
      * intros Hne ->. apply Hne, elem_of_nil_inv.
        by intros role ?%Hinc.
      * intros Hne Hnil. destruct roles as [|role roles]; [done|].
        destruct (Hall role) as (orig & Hin & _); [left|].
        rewrite Hnil in Hin. by apply elem_of_nil in Hin.
Qed.


(** ** The scenarios of the design document, run on the reference scorers *)

Example scenario_exact :
  compare_roles (H := Reference.fuzz_ref) {| fuzzy_threshold := 80 |}
    ["Software Engineer"; "Project Manager"]%string
    ["Software Engineer"; "Project Manager"]%string
  = Some {| is_incorrect := false;
            matched_roles := ["Project Manager"; "Software Engineer"]%string;
            incorrect_pdf_roles := []; fuzzy_matches := ∅ |}.
Proof. by vm_compute. Qed.

Example scenario_typo :
  Reference.ratio_ref "Managar" "Manager" = 86%Z ∧
  compare_roles (H := Reference.fuzz_ref) {| fuzzy_threshold := 80 |}
    ["Manager"%string] ["Managar"%string]
  = Some {| is_incorrect := false; matched_roles := ["Manager"%string];
            incorrect_pdf_roles := [];
            fuzzy_matches := {[ "Managar"%string := "Manager"%string ]} |}.
Proof. split; by vm_compute. Qed.

Example scenario_unrelated :
  compare_roles (H := Reference.fuzz_ref) {| fuzzy_threshold := 80 |}
    ["Manager"%string] ["Astronaut"%string]
  = Some {| is_incorrect := true; matched_roles := [];
            incorrect_pdf_roles := ["Astronaut"%string];
            fuzzy_matches := ∅ |}.
Proof. by vm_compute. Qed.

Example scenario_empty_pdf :
  compare_roles (H := Reference.fuzz_ref) {| fuzzy_threshold := 80 |}
    ["Engineer"%string] []
  = Some {| is_incorrect := false; matched_roles := [];
            incorrect_pdf_roles := []; fuzzy_matches := ∅ |}.
Proof. by vm_compute. Qed.

(** ** [chunk_text] *)

Section chunking.
Import Utils.
Local Open Scope Z_scope.

Lemma length_substring (n m : nat) s :
  (n + m ≤ String.length s)%nat → String.length (substring n m s) = m.
Proof.
  revert n m. induction s as [|c s IH]; intros [|n] [|m] Hle; simpl in *;
    try lia; try done.
  - f_equal. apply (IH 0%nat m). lia.
  - apply IH. lia.
  - apply IH. lia.
Qed.

Lemma slice_window s a b :
  0 ≤ a → a ≤ b → b ≤ len s →
  slice s a b = substring (Z.to_nat a) (Z.to_nat (b - a)) s.
Proof.
  intros Ha Hab Hb. unfold slice, slice_index.
  destruct (Z.ltb_spec a 0), (Z.ltb_spec b 0); try lia.
  by rewrite !Z.min_l by lia.
Qed.

Lemma len_slice s a b :
  0 ≤ a → a ≤ b → b ≤ len s → len (slice s a b) = b - a.
Proof.
  intros Ha Hab Hb. rewrite slice_window by done. unfold len in *.
  rewrite length_substring; lia.
Qed.

Lemma get_slice s a b (i : nat) :
  0 ≤ a → a ≤ Z.of_nat i → Z.of_nat i < b → b ≤ len s →
  get (i - Z.to_nat a) (slice s a b) = get i s.
Proof.
  intros Ha Hai Hib Hb. rewrite slice_window by lia.
  rewrite substring_correct1 by lia. f_equal. lia.
Qed.

Lemma get_Some_lt s (i : nat) c :
  get i s = Some c → (i < String.length s)%nat.
Proof.
  revert i. induction s as [|d s IH]; intros [|i] Hget; simpl in *;
    try done; try lia.
  apply IH in Hget. lia.
Qed.

Lemma truthy_rstrip_cons c s :
  isspace c = false → truthy (rstrip (String c s)) = true.
Proof. intros Hc. simpl. destruct (rstrip s); by rewrite ?Hc. Qed.

(** A string with a character that is not whitespace does not strip to
    the empty string. *)
Lemma truthy_strip s (i : nat) c :
  get i s = Some c → isspace c = false → truthy (strip s) = true.
Proof.
  unfold strip. revert i. induction s as [|d s IH]; intros i Hget Hc; [done|].
  simpl. destruct (isspace d) eqn:Hd.
  - destruct i as [|i]; simpl in Hget; [congruence|]. by apply (IH i).
  - by apply truthy_rstrip_cons.
Qed.

Lemma truthy_len s : truthy s = true → 1 ≤ len s.
Proof. destruct s; [done|]. unfold len. simpl. lia. Qed.

(** One run of the loop from [start]: the chunks already collected are
    kept, every chunk added is a non-blank window of at most [chunk_size]
    characters, and without a negative overlap every character from
    [start] on that is not whitespace lies in an added chunk. *)
Lemma chunk_loop_spec fuel text chunk_size overlap start chunks res :
  0 < chunk_size → 0 ≤ start →
  chunk_loop fuel text chunk_size overlap start chunks = Some res →
  ∃ added, res = chunks ++ added ∧
    Forall (λ chunk, ∃ a b, 0 ≤ a ∧ a < b ∧ b ≤ len text ∧
              b - a ≤ chunk_size ∧ chunk = slice text a b ∧
              truthy (strip chunk) = true) added ∧
    (0 ≤ overlap → ∀ (i : nat) c,
       start ≤ Z.of_nat i → get i text = Some c → isspace c = false →
       ∃ a b, 0 ≤ a ∧ a ≤ Z.of_nat i ∧ Z.of_nat i < b ∧ b ≤ len text ∧
         slice text a b ∈ added).
Proof.
  intros Hsize. revert start chunks.
  induction fuel as [|fuel IH]; intros start chunks Hstart; [done|].
  simpl. destruct (Z.ltb_spec start (len text)) as [Hlt|Hge]; cycle 1.
  { intros [= <-]. exists []. rewrite app_nil_r. split_and!; [done..|].
    intros _ i c Hi Hget%get_Some_lt. unfold len in *. lia. }
  set (end_ := Z.min (start + chunk_size) (len text)).
  set (chunk := slice text start end_).
  assert (start < end_ ∧ end_ ≤ len text ∧ end_ - start ≤ chunk_size)
    as (Hse & Hel & Hes) by (unfold end_; lia).
  assert (∀ (i : nat) c, start ≤ Z.of_nat i → Z.of_nat i < end_ →
            get i text = Some c → isspace c = false →
            truthy (strip chunk) = true) as Hnonblank.
  { intros i c Hi Hie Hget Hc.
    apply (truthy_strip _ (i - Z.to_nat start) c); [|done].
    unfold chunk. by rewrite get_slice by lia. }
  assert (∀ added',
    Forall (λ chunk, ∃ a b, 0 ≤ a ∧ a < b ∧ b ≤ len text ∧
              b - a ≤ chunk_size ∧ chunk = slice text a b ∧
              truthy (strip chunk) = true) added' →
    Forall (λ chunk, ∃ a b, 0 ≤ a ∧ a < b ∧ b ≤ len text ∧
              b - a ≤ chunk_size ∧ chunk = slice text a b ∧
              truthy (strip chunk) = true)
      ((if truthy (strip chunk) then [chunk] else []) ++ added')) as Hshape.
  { intros added' Hadded'. destruct (truthy (strip chunk)) eqn:Htruthy; [|done].
    constructor; [|done]. exists start, end_. by split_and!. }
  assert (∀ added', (if truthy (strip chunk) then chunks ++ [chunk] else chunks)
                    ++ added'
            = chunks ++ (if truthy (strip chunk) then [chunk] else []) ++ added')
    as Hassoc.
  { intros added'. destruct (truthy (strip chunk)); [|done].
    by rewrite <- app_assoc. }
  destruct (Z.leb_spec (len text) end_) as [Hlast|Hmore].
  - intros [= <-]. exists ((if truthy (strip chunk) then [chunk] else []) ++ []).
    split_and!.
    + by rewrite <- Hassoc, app_nil_r.
    + by apply Hshape.
    + intros _ i c Hi Hget Hc.
      assert (Z.of_nat i < end_) as Hie.
      { apply get_Some_lt in Hget. unfold len in *. lia. }
      exists start, end_. split_and!; [done..|].
      rewrite (Hnonblank i c) by done. set_solver.
  - set (start' := if chunk_size <=? overlap then end_
                   else start + (chunk_size - overlap)).
    intros Hres. apply IH in Hres as (added & -> & Hadded & Hcover).
    2:{ destruct (Z.leb_spec chunk_size overlap); lia. }
    exists ((if truthy (strip chunk) then [chunk] else []) ++ added).
    split_and!.
    + apply Hassoc.
    + by apply Hshape.
    + intros Hov i c Hi Hget Hc.
      destruct (Z.lt_ge_cases (Z.of_nat i) end_) as [Hie|Hie].
      * exists start, end_. split_and!; [done..|].
        rewrite (Hnonblank i c) by done. set_solver.
      * destruct (Hcover Hov i c) as (a & b & ? & ? & ? & ? & Hin); [|done..|].
        { destruct (Z.leb_spec chunk_size overlap); lia. }
        exists a, b. split_and!; [done..|]. set_solver.
Qed.

Lemma chunk_loop_returns fuel text chunk_size overlap start chunks :
  0 < chunk_size → 0 ≤ start →
  Z.max 0 (len text - start) < Z.of_nat fuel →
  is_Some (chunk_loop fuel text chunk_size overlap start chunks).
Proof.
  intros Hsize. revert start chunks.
  induction fuel as [|fuel IH]; intros start chunks Hstart Hfuel; [lia|].
  simpl. destruct (Z.ltb_spec start (len text)); [|by eexists].
  destruct (Z.leb_spec (len text) (Z.min (start + chunk_size) (len text)));
    [by eexists|].
  apply IH; destruct (Z.leb_spec chunk_size overlap); lia.
Qed.

End chunking.

(** ** [clean_extracted_roles] *)

Section cleaning.
Import Utils NormalForm.

Lemma rstrip_cons c s :
  rstrip (String c s)
  = match rstrip s with
    | EmptyString => if isspace c then EmptyString else String c EmptyString
    | String d r => String c (String d r)
    end.
Proof. simpl. by destruct (rstrip s). Qed.

Lemma rstrip_idem s : rstrip (rstrip s) = rstrip s.
Proof.
  induction s as [|c s IH]; [done|]. rewrite rstrip_cons.
  destruct (rstrip s) as [|d r] eqn:Hr.
  - destruct (isspace c) eqn:Hc; [done|]. simpl. by rewrite Hc.
  - by rewrite rstrip_cons, IH.
Qed.

Lemma lstrip_head s :
  match lstrip s with
  | EmptyString => True
  | String c _ => isspace c = false
  end.
Proof.
  induction s as [|c s IH]; [done|]. simpl.
  destruct (isspace c) eqn:Hc; [done|]. by simpl.
Qed.

Lemma lstrip_rstrip_head s :
  match s with
  | EmptyString => True
  | String c _ => isspace c = false
  end →
  lstrip (rstrip s) = rstrip s.
Proof.
  destruct s as [|c s]; [done|]. intros Hc. rewrite rstrip_cons.
  destruct (rstrip s); rewrite ?Hc; simpl; by rewrite Hc.
Qed.

(** Stripping twice is stripping once. *)
Lemma strip_idem s : strip (strip s) = strip s.
Proof.
  unfold strip.
  rewrite (lstrip_rstrip_head (lstrip s)) by apply lstrip_head.
  apply rstrip_idem.
Qed.

Lemma str_all_strip p s : str_all p s = true → str_all p (strip s) = true.
Proof. intros Hs. by apply str_all_rstrip, str_all_lstrip. Qed.

(** No piece of a split contains a delimiter. *)
Lemma split_on_pieces p s :
  Forall (λ piece, str_all (λ c, negb (p c)) piece = true) (split_on p s).
Proof.
  induction s as [|c s IH]; simpl; [by repeat constructor|].
  destruct (p c) eqn:Hc; [by constructor|].
  destruct (split_on p s) as [|piece pieces]; simpl.
  - repeat constructor. simpl. by rewrite Hc.
  - apply Forall_cons in IH as [Hpiece Hpieces]. constructor; [|done].
    simpl. by rewrite Hc.
Qed.

Lemma foldl_clean_step_app cleaned roles :
  foldl clean_step cleaned roles = cleaned ++ foldl clean_step [] roles.
Proof.
  revert cleaned. induction roles as [|role roles IH]; intros cleaned; simpl.
  - by rewrite app_nil_r.
  - rewrite IH, (IH (clean_step [] role)). unfold clean_step.
    destruct (truthy (strip role) && _); simpl; [|done].
    by rewrite <- app_assoc.
Qed.

(** The first loop keeps, in order, the stripped pieces that are neither
    empty nor [none]. *)
Lemma foldl_clean_step_elem_of roles x :
  x ∈ foldl clean_step [] roles ↔
  ∃ role, role ∈ roles ∧ x = strip role ∧ truthy (strip role) = true ∧
    lower (strip role) ≠ "none"%string.
Proof.
  induction roles as [|role roles IH]; simpl.
  - split; [by intros ?%elem_of_nil|]. by intros (? & ?%elem_of_nil & _).
  - rewrite foldl_clean_step_app, elem_of_app, IH. unfold clean_step.
    destruct (truthy (strip role)) eqn:Htruthy; simpl.
    + destruct (String.eqb_spec (lower (strip role)) "none") as [Hnone|Hnone];
        simpl.
      * split.
        -- intros [?%elem_of_nil|(r & ? & ?)]; [done|]. exists r. set_solver.
        -- intros (r & [->|?]%elem_of_cons & -> & Ht & Hne); [contradiction|].
           right. by exists r.
      * split.
        -- intros [->%list_elem_of_singleton|(r & ? & ?)].
           ++ exists role. split_and!; [left|done..].
           ++ exists r. set_solver.
        -- intros (r & [->|?]%elem_of_cons & -> & Hr); [left; left|].
           right. by exists r.
    + split.
      * intros [?%elem_of_nil|(r & ? & ?)]; [done|]. exists r. set_solver.
      * intros (r & [->|?]%elem_of_cons & -> & Ht & Hne); [congruence|].
        right. by exists r.
Qed.

(** The second loop: what it appends is a sublist of its input, has new and
    pairwise different lower-case forms, represents every input role whose
    lower-case form was not seen before, and keeps the first spelling. *)
Lemma foldl_unique_step_spec seen unique_roles roles :
  ∃ seen' added,
    foldl unique_step (seen, unique_roles) roles
      = (seen', unique_roles ++ added) ∧
    added `sublist_of` roles ∧
    (∀ x, x ∈ added → lower x ∉ seen) ∧
    NoDup (lower <$> added) ∧
    (∀ x, x ∈ roles → lower x ∉ seen →
       ∃ y, y ∈ added ∧ lower y = lower x) ∧
    (∀ y, y ∈ added →
       ∃ before after, roles = before ++ y :: after ∧
         ∀ x, x ∈ before → lower x ≠ lower y).
Proof.
  revert seen unique_roles.
  induction roles as [|role roles IH]; intros seen unique_roles; simpl.
  - exists seen, []. rewrite app_nil_r. split_and!; [done|done| |constructor|..].
    + by intros ? ?%elem_of_nil.
    + by intros ? ?%elem_of_nil.
    + by intros ? ?%elem_of_nil.
  - case_bool_decide as Hseen.
    + destruct (IH seen unique_roles)
        as (seen' & added & -> & Hsub & Hnew & Hnd & Hrep & Hfirst).
      exists seen', added. split_and!; [done| |done|done|..].
      * by apply sublist_cons.
      * intros x [->|Hx]%elem_of_cons Hx'; [done|]. by apply Hrep.
      * intros y Hy. destruct (Hfirst y Hy) as (before & after & -> & Hbefore).
        exists (role :: before), after. split; [done|].
        intros x [->|Hx]%elem_of_cons; [|by apply Hbefore].
        intros Heq. apply (Hnew y Hy). by rewrite <- Heq.
    + destruct (IH (seen ∪ {[lower role]}) (unique_roles ++ [role]))
        as (seen' & added & -> & Hsub & Hnew & Hnd & Hrep & Hfirst).
      exists seen', (role :: added). split_and!.
      * by rewrite <- app_assoc.
      * by apply sublist_skip.
      * intros x [->|Hx]%elem_of_cons; [done|].
        intros Hin. apply (Hnew x Hx). set_solver.
      * rewrite fmap_cons. apply NoDup_cons. split; [|done].
        intros (y & Heq & Hy)%list_elem_of_fmap.
        apply (Hnew y Hy). rewrite <- Heq. set_solver.
      * intros x [->|Hx]%elem_of_cons Hx'; [exists role; split; [left|done]|].
        destruct (decide (lower x = lower role)) as [Heq|Hne].
        -- exists role. split; [left|done].
        -- destruct (Hrep x Hx) as (y & Hy & Hyx); [set_solver|].
           exists y. split; [by right|done].
      * intros y [->|Hy]%elem_of_cons.
        -- exists [], roles. split; [done|]. by intros ? ?%elem_of_nil.
        -- destruct (Hfirst y Hy) as (before & after & -> & Hbefore).
           exists (role :: before), after. split; [done|].
           intros x [->|Hx]%elem_of_cons; [|by apply Hbefore].
           intros Heq. apply (Hnew y Hy). rewrite <- Heq. set_solver.
Qed.

End cleaning.

(** * Further properties of [src/utils.py] *)

Section utils_extra.
Import Utils NormalForm.
Local Open Scope Z_scope.

Lemma chunk_loop_fuel_mono fuel fuel' text chunk_size overlap start chunks res :
  (fuel ≤ fuel')%nat →
  chunk_loop fuel text chunk_size overlap start chunks = Some res →
  chunk_loop fuel' text chunk_size overlap start chunks = Some res.
Proof.
  revert fuel' start chunks.
  induction fuel as [|fuel IH]; intros [|fuel'] start chunks Hle; simpl;
    try done; try lia.
  destruct (start <? len text); [|done].
  destruct (len text <=? Z.min (start + chunk_size) (len text)); [done|].
  apply IH. lia.
Qed.

(** X1.  [chunk_text] returns for every text, chunk size and overlap, also
    when the overlap is negative or not smaller than the chunk size: the
    loop needs at most one pass per character, and more fuel does not change
    its result.  An empty text or a chunk size of zero or less gives no
    chunk. *)
Theorem chunk_text_returns (text : string) (chunk_size overlap : Z) :
  ∃ chunks, chunk_text text chunk_size overlap = Some chunks ∧
    (truthy text = false ∨ chunk_size ≤ 0 → chunks = []) ∧
    (truthy text = true → 0 < chunk_size →
     ∀ fuel, (String.length text < fuel)%nat →
       chunk_loop fuel text chunk_size overlap 0 [] = Some chunks).
Proof.
  unfold chunk_text.
  destruct (truthy text) eqn:Htext; simpl.
  - destruct (Z.leb_spec chunk_size 0) as [Hsize|Hsize].
    + exists []. split_and!; [done|done|lia].
    + destruct (chunk_loop_returns (S (String.length text)) text chunk_size
                  overlap 0 []) as [chunks Hchunks]; [done|done| |].
      { unfold len. lia. }
      exists chunks. split_and!; [done|intros [?|?]; [done|lia]|].
      intros _ _ fuel Hfuel.
      apply (chunk_loop_fuel_mono (S (String.length text))); [lia|done].
  - exists []. split_and!; [done|done|done].
Qed.

(** X2.  Every chunk [chunk_text] returns is a window of the text: it is
    the slice of the text at some offset, it has at least one and at most
    [chunk_size] characters, and it is not blank (it does not strip to the
    empty string). *)
Theorem chunk_text_chunks_are_windows (text : string) (chunk_size overlap : Z) :
  ∃ chunks, chunk_text text chunk_size overlap = Some chunks ∧
    Forall (λ chunk,
              truthy (strip chunk) = true ∧
              1 ≤ len chunk ∧ len chunk ≤ chunk_size ∧
              ∃ a, 0 ≤ a ∧ a + len chunk ≤ len text ∧
                   chunk = slice text a (a + len chunk)) chunks.
Proof.
  unfold chunk_text.
  destruct (negb (truthy text) || (chunk_size <=? 0)) eqn:Hearly.
  { exists []. by split. }
  apply orb_false_iff in Hearly as [_ Hsize%Z.leb_gt].
  destruct (chunk_loop_returns (S (String.length text)) text chunk_size
              overlap 0 []) as [chunks Hchunks]; [done|done| |].
  { unfold len. lia. }
  exists chunks. split; [done|].
  apply chunk_loop_spec in Hchunks as (added & -> & Hadded & _); [|done..].
  simpl. eapply Forall_impl; [exact Hadded|].
  intros chunk (a & b & Ha & Hab & Hb & Hsz & -> & Htruthy).
  rewrite len_slice by lia.
  split_and!; [done|lia|lia|].
  exists a. split_and!; [done|lia|]. f_equal. lia.
Qed.



Lemma foldl_clean_step_sublist roles :
  foldl clean_step [] roles `sublist_of` strip <$> roles.
Proof.
  induction roles as [|role roles IH]; simpl; [done|].
  rewrite foldl_clean_step_app. unfold clean_step.
  destruct (truthy (strip role) && _); simpl.
  - by apply sublist_skip.
  - by apply sublist_cons.
Qed.

(** Either the early [return []] fires, or the result is what the second
    loop collects. *)
Lemma clean_extracted_roles_cases s :
  ((truthy s = false ∨ lower (strip s) = "none"%string) ∧
   clean_extracted_roles s = []) ∨
  (truthy s = true ∧ lower (strip s) ≠ "none"%string ∧
   ∃ seen,
     foldl unique_step (∅, [])
       (foldl clean_step [] (split_on is_delimiter (sub_list_markers true s)))
     = (seen, clean_extracted_roles s)).
Proof.
  unfold clean_extracted_roles.
  destruct (truthy s) eqn:Htruthy; simpl; [|left; split; [by left|done]].
  destruct (String.eqb_spec (lower (strip s)) "none") as [Hnone|Hnone].
  - left. split; [by right|done].
  - right. split_and!; [done..|].
    destruct (foldl unique_step _ _) as [seen unique_roles]. by exists seen.
Qed.

(** X4.  Every role [clean_extracted_roles] returns is non-empty, has no
    whitespace at either end, is not the word [none] in any casing, and
    contains no comma, semicolon or newline. *)
Theorem clean_extracted_roles_well_formed (roles_str : string) :
  Forall (λ role,
            truthy role = true ∧ strip role = role ∧
            lower role ≠ "none"%string ∧
            str_all (λ c, negb (is_delimiter c)) role = true)
         (clean_extracted_roles roles_str).
Proof.
  destruct (clean_extracted_roles_cases roles_str)
    as [[_ ->]|(_ & _ & seen & Hloop)]; [constructor|].
  destruct (foldl_unique_step_spec ∅ []
              (foldl clean_step []
                 (split_on is_delimiter (sub_list_markers true roles_str))))
    as (seen' & added & Hspec & Hsub & _).
  rewrite Hspec in Hloop. injection Hloop as _ <-. simpl.
  apply Forall_forall. intros role Hrole.
  apply (sublist_subseteq _ _ Hsub) in Hrole.
  apply foldl_clean_step_elem_of in Hrole as (piece & Hpiece & -> & Ht & Hne).
  split_and!; [done|apply strip_idem|done|].
  apply str_all_strip.
  by eapply Forall_forall in Hpiece; [|apply split_on_pieces].
Qed.

(** X5.  The roles [clean_extracted_roles] returns are pairwise different
    even when case is ignored, and they come in the order of the text: the
    result is a sublist of the stripped pieces of the split. *)
Theorem clean_extracted_roles_unique_in_order (roles_str : string) :
  NoDup (lower <$> clean_extracted_roles roles_str) ∧
  NoDup (clean_extracted_roles roles_str) ∧
  clean_extracted_roles roles_str
    `sublist_of`
    strip <$> split_on is_delimiter (sub_list_markers true roles_str).
Proof.
  destruct (clean_extracted_roles_cases roles_str)
    as [[_ ->]|(_ & _ & seen & Hloop)].
  { split_and!; [constructor|constructor|apply sublist_nil_l]. }
  destruct (foldl_unique_step_spec ∅ []
              (foldl clean_step []
                 (split_on is_delimiter (sub_list_markers true roles_str))))
    as (seen' & added & Hspec & Hsub & _ & Hnd & _).
  rewrite Hspec in Hloop. injection Hloop as _ <-. simpl.
  split_and!; [done|by eapply NoDup_fmap_1| ].
  etrans; [exact Hsub|apply foldl_clean_step_sublist].
Qed.

(** X6.  Unless the whole input is empty or the word [none], nothing but
    case variants is dropped: every piece of the split that is not blank and
    not [none] is returned, up to case, and the spelling returned is the
    first one in the text. *)
Theorem clean_extracted_roles_complete (roles_str piece : string) :
  truthy roles_str = true →
  lower (strip roles_str) ≠ "none"%string →
  piece ∈ split_on is_delimiter (sub_list_markers true roles_str) →
  truthy (strip piece) = true →
  lower (strip piece) ≠ "none"%string →
  ∃ role, role ∈ clean_extracted_roles roles_str ∧
    lower role = lower (strip piece) ∧
    ∃ before after,
      foldl clean_step []
        (split_on is_delimiter (sub_list_markers true roles_str))
      = before ++ role :: after ∧
      ∀ earlier, earlier ∈ before → lower earlier ≠ lower role.
Proof.
  intros Htruthy Hnone Hpiece Hkeep Hne.
  destruct (clean_extracted_roles_cases roles_str)
    as [[[?|?] _]|(_ & _ & seen & Hloop)]; [congruence|done|].
  destruct (foldl_unique_step_spec ∅ []
              (foldl clean_step []
                 (split_on is_delimiter (sub_list_markers true roles_str))))
    as (seen' & added & Hspec & _ & _ & _ & Hrep & Hfirst).
  rewrite Hspec in Hloop. injection Hloop as _ <-. simpl.
  destruct (Hrep (strip piece)) as (role & Hrole & Heq).
  { apply foldl_clean_step_elem_of. by exists piece. }
  { apply not_elem_of_empty. }
  exists role. split_and!; [done..|]. by apply Hfirst.
Qed.

(** X6 on two spellings of one role. *)
Lemma clean_extracted_roles_complete_witness :
  clean_extracted_roles "Engineer, engineer" = ["Engineer"%string] ∧
  ∃ role, role ∈ clean_extracted_roles "Engineer, engineer" ∧
    lower role = lower (strip " engineer") ∧
    ∃ before after,
      foldl clean_step []
        (split_on is_delimiter (sub_list_markers true "Engineer, engineer"))
      = before ++ role :: after ∧
      ∀ earlier, earlier ∈ before → lower earlier ≠ lower role.
Proof.
  split; [by vm_compute|].
  apply (clean_extracted_roles_complete "Engineer, engineer" " engineer").
  - reflexivity.
  - discriminate.
  - vm_compute. right. left.
  - reflexivity.
  - discriminate.
Defined.

End utils_extra.

(** * Further properties of [src/role_comparer.py] *)

Section comparer_extra.
Import Utils NormalForm RoleComparer.

(** X7.  The result only speaks of input strings: every matched role is an
    element of [xml_roles], every incorrect role is an element of
    [pdf_roles], and every fuzzy entry maps an element of [pdf_roles] to an
    element of [xml_roles]. *)
Theorem compare_roles_results_from_inputs {Hfuzz : Fuzz} (self : t)
    (xml_roles pdf_roles : list string) :
  ∃ r, compare_roles self xml_roles pdf_roles = Some r ∧
    Forall (λ xml, xml ∈ xml_roles) (matched_roles r) ∧
    Forall (λ pdf, pdf ∈ pdf_roles) (incorrect_pdf_roles r) ∧
    map_Forall (λ pdf xml, pdf ∈ pdf_roles ∧ xml ∈ xml_roles)
               (fuzzy_matches r).
Proof.
  destruct (compare_roles_spec self xml_roles pdf_roles)
    as (r & Hr & Hm & Hf & Hi & _).
  assert (∀ pdf xml, fuzzy_matches r !! pdf = Some xml →
                     pdf ∈ pdf_roles ∧ xml ∈ xml_roles) as Hfuzzy.
  { intros pdf xml (Hpdf & _ & kind & Hscan)%Hf. split.
    - by apply normalized_index_Some in Hpdf as [_ ?].
    - by eapply scan_xml_elem_of. }
  exists r. split_and!; [done|..|done].
  - apply Forall_forall. intros xml [(norm & _ & Hx)|(pdf & Hx)]%Hm.
    + by apply normalized_index_Some in Hx as [_ ?].
    + by apply Hfuzzy in Hx as [_ ?].
  - apply Forall_forall. intros pdf (Hpdf & _)%Hi.
    by apply normalized_index_Some in Hpdf as [_ ?].
Qed.

(** X8.  Direct matches come first and do not depend on the scorers or the
    threshold: when the normalised key of a PDF role is in the XML index,
    the XML spelling recorded there is matched, and no PDF spelling with
    that key is incorrect or gets a fuzzy entry. *)
Theorem compare_roles_direct_match {Hfuzz : Fuzz} (self : t)
    (xml_roles pdf_roles : list string) (pdf_role xml_role : string) :
  pdf_role ∈ pdf_roles →
  normalized_index xml_roles !! normalize_role pdf_role = Some xml_role →
  ∃ r, compare_roles self xml_roles pdf_roles = Some r ∧
    xml_role ∈ matched_roles r ∧
    ∀ spelling, normalize_role spelling = normalize_role pdf_role →
      (spelling ∉ incorrect_pdf_roles r) ∧
      fuzzy_matches r !! spelling = None.
Proof.
  intros Hin Hxml.
  destruct (compare_roles_spec self xml_roles pdf_roles)
    as (r & Hr & Hm & Hf & Hi & _).
  exists r. split_and!; [done|..].
  - apply Hm. left. exists (normalize_role pdf_role).
    split; [by apply normalized_index_is_Some|done].
  - intros spelling Hkey. split.
    + intros (_ & Hnone & _)%Hi. congruence.
    + destruct (fuzzy_matches r !! spelling) as [xml|] eqn:Hentry; [|done].
      apply Hf in Hentry as (_ & Hnone & _). congruence.
Qed.

(** X8 on a PDF role that differs from the XML role in case and spacing. *)
Lemma compare_roles_direct_match_witness :
  "SOFTWARE  engineer"%string ∈ ["SOFTWARE  engineer"%string] ∧
  normalized_index ["Software Engineer"%string]
    !! normalize_role "SOFTWARE  engineer" = Some "Software Engineer"%string ∧
  ∃ r, compare_roles (H := Reference.fuzz_ref) {| fuzzy_threshold := 100 |}
         ["Software Engineer"%string] ["SOFTWARE  engineer"%string] = Some r ∧
    "Software Engineer"%string ∈ matched_roles r ∧
    ∀ spelling,
      normalize_role spelling = normalize_role "SOFTWARE  engineer" →
      (spelling ∉ incorrect_pdf_roles r) ∧
      fuzzy_matches r !! spelling = None.
Proof.
  split; [left|]. split; [by vm_compute|].
  apply (compare_roles_direct_match (Hfuzz := Reference.fuzz_ref)).
  - left.
  - by vm_compute.
Defined.

(** X9.  The verdict: [is_incorrect] is false exactly when every spelling
    recorded in the PDF mapping either has its key in the XML index or
    passes [fuzzy_match] or [fuzzy_partial_match] against some XML role. *)
Theorem compare_roles_verdict {Hfuzz : Fuzz} (self : t)
    (xml_roles pdf_roles : list string) :
  ∃ r, compare_roles self xml_roles pdf_roles = Some r ∧
    (is_incorrect r = false ↔
     ∀ orig, normalized_index pdf_roles !! normalize_role orig = Some orig →
       is_Some (normalized_index xml_roles !! normalize_role orig) ∨
       ∃ xml, xml ∈ xml_roles ∧
         (fuzzy_match orig xml (fuzzy_threshold self) = true ∨
          fuzzy_partial_match orig xml (fuzzy_threshold self) = true)).
Proof.
  destruct (compare_roles_spec self xml_roles pdf_roles)
    as (r & Hr & _ & _ & Hi & Hflag & _).
  exists r. split; [done|]. rewrite Hflag, bool_decide_eq_false. split.
  - intros Hnil%dec_stable orig Horig.
    destruct (normalized_index xml_roles !! normalize_role orig) eqn:Hxml;
      [left; by eexists|right].
    destruct (scan_xml self orig xml_roles) as [[xml kind]|] eqn:Hscan.
    + apply scan_xml_Some in Hscan as (before & after & -> & _ & Hkind).
      exists xml. split; [set_solver|].
      destruct kind; [by left|right; apply Hkind].
    + assert (orig ∈ incorrect_pdf_roles r) as Hin by (by apply Hi).
      rewrite Hnil in Hin. by apply elem_of_nil in Hin.
  - intros Hall Hne. apply Hne, elem_of_nil_inv.
    intros orig (Horig & Hnone & Hscan)%Hi.
    destruct (Hall orig Horig) as [[? ?]|(xml & Hxml & Hpass)]; [congruence|].
    destruct (proj1 (scan_xml_None self orig xml_roles) Hscan xml Hxml)
      as [Hfull Hpart].
    destruct Hpass; congruence.
Qed.

Lemma StronglySorted_strict_le (l : list string) :
  StronglySorted (strict String.le) l → Sorted String.le l.
Proof.
  intros Hl. apply StronglySorted_Sorted.
  induction Hl as [|x l Hl IH Hx]; constructor; [done|].
  eapply Forall_impl; [exact Hx|]. by intros y [? _].
Qed.

Lemma strictly_sorted_ext (l k : list string) :
  StronglySorted (strict String.le) l →
  StronglySorted (strict String.le) k →
  (∀ x, x ∈ l ↔ x ∈ k) → l = k.
Proof.
  intros Hl Hk Hext.
  apply (Sorted_unique String.le); [by apply StronglySorted_strict_le..|].
  apply NoDup_Permutation; [by apply StronglySorted_strict_NoDup..|done].
Qed.

(** X10.  When every PDF role has its normalised key in the XML index, the
    result is the same for all scorers and all thresholds: nothing is
    incorrect, nothing is matched fuzzily and the verdict is false. *)
Theorem compare_roles_all_direct (Hfuzz Hfuzz' : Fuzz) (self self' : t)
    (xml_roles pdf_roles : list string) :
  (∀ pdf_role, pdf_role ∈ pdf_roles →
     is_Some (normalized_index xml_roles !! normalize_role pdf_role)) →
  compare_roles (H := Hfuzz) self xml_roles pdf_roles
    = compare_roles (H := Hfuzz') self' xml_roles pdf_roles ∧
  ∃ r, compare_roles (H := Hfuzz) self xml_roles pdf_roles = Some r ∧
    is_incorrect r = false ∧ incorrect_pdf_roles r = [] ∧
    fuzzy_matches r = ∅.
Proof.
  intros Hall.
  assert (∀ (H : Fuzz) (s : t), ∃ r,
            compare_roles (H := H) s xml_roles pdf_roles = Some r ∧
            is_incorrect r = false ∧ incorrect_pdf_roles r = [] ∧
            fuzzy_matches r = ∅ ∧
            StronglySorted (strict String.le) (matched_roles r) ∧
            ∀ x, x ∈ matched_roles r ↔
              ∃ norm, is_Some (normalized_index pdf_roles !! norm) ∧
                normalized_index xml_roles !! norm = Some x) as Hshape.
  { intros H s.
    destruct (compare_roles_spec (H := H) s xml_roles pdf_roles)
      as (r & Hr & Hm & Hf & Hi & Hflag & Hsm & _).
    assert (∀ orig, normalized_index pdf_roles !! normalize_role orig = Some orig →
              normalized_index xml_roles !! normalize_role orig ≠ None) as Hdirect.
    { intros orig [_ Hin]%normalized_index_Some Hnone.
      destruct (Hall orig Hin) as [? ?]. congruence. }
    assert (fuzzy_matches r = ∅) as Hfuzzy.
    { apply map_empty. intros orig.
      destruct (fuzzy_matches r !! orig) as [x|] eqn:Hentry; [|done].
      apply Hf in Hentry as (Horig & Hnone & _). by apply Hdirect in Horig. }
    assert (incorrect_pdf_roles r = []) as Hinc.
    { apply elem_of_nil_inv. intros orig (Horig & Hnone & _)%Hi.
      by apply Hdirect in Horig. }
    exists r. split_and!; [done| |done|done|done|].
    - rewrite Hflag, Hinc. apply bool_decide_eq_false_2. by intros Hne.
    - intros x. rewrite Hm. split; [|by left].
      intros [?|[orig Hx]]; [done|]. by rewrite Hfuzzy, lookup_empty in Hx. }
  destruct (Hshape Hfuzz self) as (r & Hr & Hflag & Hinc & Hfuzzy & Hs & Hm).
  destruct (Hshape Hfuzz' self') as (r' & Hr' & Hflag' & Hinc' & Hfuzzy' & Hs' & Hm').
  split; [|by exists r].
  rewrite Hr, Hr'. f_equal.
  destruct r as [flag matched incorrect fuzzy],
           r' as [flag' matched' incorrect' fuzzy']. simpl in *. subst.
  f_equal. apply strictly_sorted_ext; [done..|].
  intros x. by rewrite Hm, Hm'.
Qed.

(** X10 on the first scenario of the design document, at the thresholds 80
    and 100. *)
Lemma compare_roles_all_direct_witness :
  compare_roles (H := Reference.fuzz_ref) {| fuzzy_threshold := 80 |}
    ["Software Engineer"; "Project Manager"]%string
    ["project manager"; "Software Engineer"]%string
  = compare_roles (H := Reference.fuzz_ref) {| fuzzy_threshold := 100 |}
      ["Software Engineer"; "Project Manager"]%string
      ["project manager"; "Software Engineer"]%string ∧
  ∃ r, compare_roles (H := Reference.fuzz_ref) {| fuzzy_threshold := 80 |}
         ["Software Engineer"; "Project Manager"]%string
         ["project manager"; "Software Engineer"]%string = Some r ∧
    is_incorrect r = false ∧ incorrect_pdf_roles r = [] ∧
    fuzzy_matches r = ∅.
Proof.
  apply (compare_roles_all_direct Reference.fuzz_ref Reference.fuzz_ref).
  intros pdf_role [->|[->|[]%elem_of_nil]%elem_of_cons]%elem_of_cons;
    vm_compute; eexists; reflexivity.
Defined.

End comparer_extra.

(** * Further properties of the normaliser and of the statistics *)

Section normalizer_extra.
Import Utils NormalForm RoleComparer.

Lemma lower_idem s : lower (lower s) = lower s.
Proof.
  unfold lower. induction s as [|c s IH]; simpl; [done|].
  by rewrite char_lower_idem, IH.
Qed.

Lemma lower_lstrip s : lower (lstrip s) = lstrip (lower s).
Proof.
  unfold lower. induction s as [|c s IH]; simpl; [done|].
  rewrite isspace_char_lower. by destruct (isspace c).
Qed.

Lemma lower_rstrip s : lower (rstrip s) = rstrip (lower s).
Proof.
  unfold lower. induction s as [|c s IH]; [done|].
  cbn [str_map]. rewrite !rstrip_cons, <- IH, isspace_char_lower.
  destruct (rstrip s); simpl; [by destruct (isspace c)|done].
Qed.

Lemma lower_strip s : lower (strip s) = strip (lower s).
Proof. unfold strip. by rewrite lower_rstrip, lower_lstrip. Qed.

(** X11.  The result of [normalize_role] is in normal form: lower-case word
    characters separated by single spaces.  Lower-casing it, removing
    punctuation from it and collapsing its whitespace all leave it as it
    is; only the trimming can still act on it. *)
Theorem normalize_role_normal_form (s : string) :
  normal false (normalize_role s) = true ∧
  lower (normalize_role s) = normalize_role s ∧
  sub_nonword_nonspace (normalize_role s) = normalize_role s ∧
  sub_space_runs false (normalize_role s) = normalize_role s.
Proof.
  pose proof (normal_normalize_role s) as Hnormal.
  split_and!; [done|..].
  - by eapply lower_normal.
  - by eapply sub_nonword_nonspace_normal.
  - by apply sub_space_runs_normal.
Qed.

(** X12.  [normalize_role] ignores case and surrounding whitespace: a
    string, its lower-case form and its trimmed form have the same key. *)
Theorem normalize_role_ignores_case_and_margins (s : string) :
  normalize_role (lower s) = normalize_role s ∧
  normalize_role (strip s) = normalize_role s.
Proof.
  unfold normalize_role. split.
  - by rewrite lower_idem.
  - by rewrite lower_strip, strip_idem.
Qed.

(** X13.  On a result of [compare_roles], the statistics agree with the
    verdict: [is_valid] is the negation of [is_incorrect], and the two
    counts are the lengths of the two result lists. *)
Theorem get_match_statistics_agrees_with_verdict {Hfuzz : Fuzz} (self : t)
    (xml_roles pdf_roles : list string) :
  ∃ r, compare_roles self xml_roles pdf_roles = Some r ∧
    let stats := get_match_statistics (matched_roles r)
                   (incorrect_pdf_roles r) xml_roles pdf_roles in
    Stats.is_valid stats = negb (is_incorrect r) ∧
    Stats.matched_count stats = length (matched_roles r) ∧
    Stats.incorrect_count stats = length (incorrect_pdf_roles r).
Proof.
  destruct (compare_roles_spec self xml_roles pdf_roles)
    as (r & Hr & _ & _ & _ & Hflag & _).
  exists r. split; [done|]. simpl. split_and!; [|done..].
  rewrite Hflag. by destruct (incorrect_pdf_roles r).
Qed.

(** X14.  On a result of [compare_roles], the counts are bounded by the
    inputs: the matched and the incorrect roles together are at most as many
    as the distinct PDF roles, and the matched roles at most as many as the
    distinct XML roles.  So the match rate never exceeds one. *)
Theorem get_match_statistics_counts_bounded {Hfuzz : Fuzz} (self : t)
    (xml_roles pdf_roles : list string) :
  ∃ r, compare_roles self xml_roles pdf_roles = Some r ∧
    let stats := get_match_statistics (matched_roles r)
                   (incorrect_pdf_roles r) xml_roles pdf_roles in
    (Stats.matched_count stats + Stats.incorrect_count stats
      ≤ Stats.total_pdf_roles stats)%nat ∧
    (Stats.matched_count stats ≤ Stats.total_xml_roles stats)%nat.
Proof.
  destruct (compare_roles_spec self xml_roles pdf_roles)
    as (r & Hr & Hm & Hf & Hi & _ & Hsm & Hsi).
  exists r. split; [done|]. simpl. split.
  - (* every reported outcome is the outcome of a distinct PDF role *)
    set (outcome := λ orig : string,
           match normalized_index xml_roles !! normalize_role orig
             return (string + string)%type with
           | Some xml => inl xml
           | None =>
               match scan_xml self orig xml_roles with
               | Some (xml, _) => inl xml
               | None => inr orig
               end
           end).
    set (reported := (inl <$> matched_roles r) ++ (inr <$> incorrect_pdf_roles r)
                     : list (string + string)%type).
    set (candidates := outcome <$> elements (list_to_set pdf_roles : gset string)).
    assert (length reported ≤ length candidates)%nat as Hle.
    { apply submseteq_length, NoDup_submseteq.
      - apply NoDup_app. split_and!.
        + apply (NoDup_fmap_2 inl), StronglySorted_strict_NoDup, Hsm.
        + intros ? (x & -> & _)%list_elem_of_fmap (y & ? & _)%list_elem_of_fmap.
          done.
        + apply (NoDup_fmap_2 inr), StronglySorted_strict_NoDup, Hsi.
      - assert (∀ orig, normalized_index pdf_roles !! normalize_role orig
                          = Some orig →
                  outcome orig ∈ candidates) as Hcand.
        { intros orig [_ Hin]%normalized_index_Some.
          apply list_elem_of_fmap_2, elem_of_elements, elem_of_list_to_set, Hin. }
        intros e [(x & -> & Hx)%list_elem_of_fmap
                 |(o & -> & Ho)%list_elem_of_fmap]%elem_of_app.
        + apply Hm in Hx as [(norm & [orig Horig] & Hx)|(orig & Hx)].
          * destruct (normalized_index_Some _ _ _ Horig) as [Hkey _].
            rewrite <- Hkey in Horig, Hx.
            specialize (Hcand orig Horig). unfold outcome in Hcand.
            by rewrite Hx in Hcand.
          * apply Hf in Hx as (Horig & Hnone & kind & Hscan).
            specialize (Hcand orig Horig). unfold outcome in Hcand.
            by rewrite Hnone, Hscan in Hcand.
        + apply Hi in Ho as (Horig & Hnone & Hscan).
          specialize (Hcand o Horig). unfold outcome in Hcand.
          by rewrite Hnone, Hscan in Hcand. }
    unfold reported, candidates in Hle.
    by rewrite length_app, !length_fmap in Hle.
  - apply submseteq_length, NoDup_submseteq.
    + apply StronglySorted_strict_NoDup, Hsm.
    + intros x [(norm & _ & Hx)|(orig & Hx)]%Hm;
        apply elem_of_elements, elem_of_list_to_set.
      * by apply normalized_index_Some in Hx as [_ ?].
      * apply Hf in Hx as (_ & _ & kind & Hscan). by eapply scan_xml_elem_of.
Qed.

End normalizer_extra.
